(** * The AFU420 property layer of tiscamera

    A shallow embedding of [src/libusb/AFU420PropertyImpl.cpp]: the four
    property classes [AFU420PropertyIntegerImpl], [AFU420PropertyDoubleImpl],
    [AFU420PropertyBoolImpl] and [AFU420PropertyEnumImpl], their constructors
    and their get/set/validate members.

    Every member function that locks [m_cam] is a computation over a [World]:
    whether the device object still owns the backend, the state of the camera
    behind it, and the list of calls that reached the backend. *)

From Stdlib Require Import ZArith List String Bool Lia Sorted SpecFloat.
Import ListNotations.
Local Open Scope Z_scope.

(** ** Error codes and results *)

(** Modelled from the spec: [tcam::status] is declared in a header that is not
    part of the sources.  The constructors are the enumerators named in
    [AFU420PropertyImpl.cpp]; [OtherStatus] stands for every other enumerator,
    which only a backend can produce. *)
Inductive status : Type :=
| Success
| UndefinedError
| PropertyOutOfBounds
| PropertyValueDoesNotExist
| ResourceNotLockable
| OtherStatus (code : Z).

(** [outcome::result<T>]; [outcome::result<void>] is [result unit]. *)
Inductive result (T : Type) : Type :=
| success (v : T)
| failure (e : status).
Arguments success {T} v.
Arguments failure {T} e.

(** [if (r)] on a result: true when it holds a value. *)
Definition has_value {T : Type} (r : result T) : bool :=
  match r with
  | success _ => true
  | failure _ => false
  end.

(** What a call can do besides returning: [std::map::at] throws
    [std::out_of_range] on a missing key, and a floating-integral conversion
    whose truncated value does not fit the destination has undefined
    behaviour. *)
Inductive abnormal : Type :=
| std_out_of_range
| undefined_behaviour.

Inductive completion (T : Type) : Type :=
| returns (v : T)
| aborts (why : abnormal).
Arguments returns {T} v.
Arguments aborts {T} why.

(** ** Fixed-width integers *)

(** The value of an [int64_t] converted to [int] (32 bits, two's complement). *)
Definition to_int (z : Z) : Z := (z + 2 ^ 31) mod 2 ^ 32 - 2 ^ 31.

Definition is_int (z : Z) : bool := (- 2 ^ 31 <=? z) && (z <? 2 ^ 31).

Definition is_int64 (z : Z) : bool := (- 2 ^ 63 <=? z) && (z <? 2 ^ 63).

(** ** [double] *)

(** IEEE 754 binary64, in the Standard Library's specification of floats. *)
Definition double : Type := spec_float.

Definition prec : Z := 53.
Definition emax : Z := 1024.

(** [a > b] on doubles: false as soon as one side is a NaN. *)
Definition double_gt (a b : double) : bool := SFltb b a.

(** [a <= b] on doubles. *)
Definition double_le (a b : double) : bool := SFleb a b.

Definition is_nan (d : double) : bool :=
  match d with
  | S754_nan => true
  | _ => false
  end.

(** The implicit conversion [int64_t -> double]: the nearest double, ties to
    even. *)
Definition int64_to_double (z : Z) : double := binary_normalize prec emax z 0 false.

(** The value of a finite double with its fractional part discarded. *)
Definition truncate (d : double) : option Z :=
  match d with
  | S754_zero _ => Some 0
  | S754_finite s m e =>
      let magnitude :=
        match e with
        | Z0 => Zpos m
        | Zpos _ => Zpos m * 2 ^ e
        | Zneg _ => Zpos m / 2 ^ (- e)
        end in
      Some (if s then - magnitude else magnitude)
  | S754_infinity _ | S754_nan => None
  end.

(** The implicit conversion [double -> int64_t]: truncation toward zero,
    undefined when the truncated value is not an [int64_t]. *)
Definition double_to_int64 (d : double) : option Z :=
  match truncate d with
  | Some z => if is_int64 z then Some z else None
  | None => None
  end.

(** The double [d] is finite and its value is exactly the integer [x]:
    [(-1)^s * m * 2^e = x], with the power of two moved to the side where its
    exponent is not negative. *)
Definition represents (d : double) (x : Z) : Prop :=
  match d with
  | S754_zero _ => x = 0
  | S754_finite s m e =>
      (if s then - Zpos m else Zpos m) * 2 ^ Z.max 0 e = x * 2 ^ Z.max 0 (- e)
  | S754_infinity _ | S754_nan => False
  end.

(** ** The backend and the world it lives in *)

(** [AFU420DeviceBackend] is declared in a header that is not part of the
    sources, so its four members are parameters: each acts on the state [Dev]
    of the camera and reports a result.  [Id] is [tcam::afu420::AFU420Property]. *)
Class AFU420DeviceBackend (Id Dev : Type) : Type := {
  get_int : Id -> Dev -> result Z * Dev;
  set_int : Id -> Z -> Dev -> result unit * Dev;
  get_bool : Id -> Dev -> result bool * Dev;
  set_bool : Id -> bool -> Dev -> result unit * Dev
}.

(** A call that reached the backend. *)
Inductive BackendCall (Id : Type) : Type :=
| GetInt (id : Id)
| SetInt (id : Id) (value : Z)
| GetBool (id : Id)
| SetBool (id : Id) (value : bool).
Arguments GetInt {Id} id.
Arguments SetInt {Id} id value.
Arguments GetBool {Id} id.
Arguments SetBool {Id} id value.

(** [owned]: the device object still holds its [shared_ptr] to the backend;
    once it is released every [weak_ptr] to the backend has expired. *)
Record World (Id Dev : Type) : Type := mkWorld {
  owned : bool;
  device : Dev;
  calls : list (BackendCall Id)
}.
Arguments mkWorld {Id Dev} owned device calls.
Arguments owned {Id Dev} w.
Arguments device {Id Dev} w.
Arguments calls {Id Dev} w.

(** The device object drops its backend. *)
Definition release {Id Dev : Type} (w : World Id Dev) : World Id Dev :=
  mkWorld false (device w) (calls w).

(** [std::shared_ptr<AFU420DeviceBackend>]: null, or the device's backend. *)
Inductive shared_ptr : Type :=
| nullptr
| backend.

(** [std::weak_ptr<AFU420DeviceBackend>]: what it was built from. *)
Record weak_ptr : Type := weak_of { observed : shared_ptr }.

(** Computations that read and change the world. *)
Definition M (Id Dev A : Type) : Type := World Id Dev -> A * World Id Dev.

Definition ret {Id Dev A : Type} (a : A) : M Id Dev A := fun w => (a, w).

Definition bind {Id Dev A B : Type} (c : M Id Dev A) (k : A -> M Id Dev B) : M Id Dev B :=
  fun w => let (a, w') := c w in k a w'.

Notation "x <- c ;; k" := (bind c (fun x => k))
  (at level 61, c at next level, right associativity).

Section Backend.
Context {Id Dev : Type} `{Cam : AFU420DeviceBackend Id Dev}.

(** [m_cam.lock()] *)
Definition lock (m_cam : weak_ptr) : M Id Dev shared_ptr :=
  fun w =>
    (match observed m_cam with
     | backend => if owned w then backend else nullptr
     | nullptr => nullptr
     end, w).

(** A member of the backend called through a locked pointer: it runs on the
    device and is recorded. *)
Definition through {A : Type} (call : BackendCall Id) (op : Dev -> result A * Dev)
  : M Id Dev (result A) :=
  fun w =>
    let (r, d) := op (device w) in
    (r, mkWorld (owned w) d (calls w ++ [call])).

(** [ptr->get_int(id)] *)
Definition ptr_get_int (id : Id) : M Id Dev (result Z) :=
  through (GetInt id) (get_int id).

(** [ptr->set_int(id, v)] *)
Definition ptr_set_int (id : Id) (v : Z) : M Id Dev (result unit) :=
  through (SetInt id v) (set_int id v).

(** [ptr->get_bool(id)] *)
Definition ptr_get_bool (id : Id) : M Id Dev (result bool) :=
  through (GetBool id) (get_bool id).

(** [ptr->set_bool(id, v)] *)
Definition ptr_set_bool (id : Id) (v : bool) : M Id Dev (result unit) :=
  through (SetBool id v) (set_bool id v).
End Backend.

(** ** Static descriptors and flags *)

(** Modelled from the spec: [tcamprop1::prop_type] is declared outside the
    sources; these are the value kinds of the property contracts. *)
Inductive prop_type : Type :=
| Boolean
| Integer
| Float
| Command
| Enumeration.

Definition prop_type_eqb (a b : prop_type) : bool :=
  match a, b with
  | Boolean, Boolean | Integer, Integer | Float, Float
  | Command, Command | Enumeration, Enumeration => true
  | _, _ => false
  end.

(** What [tcamprop1::find_prop_static_info] returns: a kind tag and a pointer
    to the descriptor ([None] is the null pointer). *)
Record prop_static_info (Info : Type) : Type := mk_static_info {
  type : prop_type;
  info_ptr : option Info
}.
Arguments mk_static_info {Info} type info_ptr.
Arguments type {Info} p.
Arguments info_ptr {Info} p.

(** [PropertyFlags] is a bit mask; [operator|] is bitwise or. *)
Definition PropertyFlags : Type := Z.

Definition flags_or (a b : PropertyFlags) : PropertyFlags := Z.lor a b.

(** The declarations the constructors use and the sources do not contain: the
    registry lookup and the two enumerators of [PropertyFlags]. *)
Class Declarations (Info : Type) : Type := {
  find_prop_static_info : string -> prop_static_info Info;
  Available : PropertyFlags;
  Implemented : PropertyFlags
}.

(** [if (p)] on a pointer. *)
Definition non_null {A : Type} (p : option A) : bool :=
  match p with
  | Some _ => true
  | None => false
  end.

(** The three-way branch every constructor ends with, for the kind [wanted]:
    the descriptor when the lookup has that kind and a pointer, the null
    pointer in the two other branches (which differ in the message they log). *)
Definition select_static_info {Info : Type} (wanted : prop_type)
    (static_info : prop_static_info Info) : option Info :=
  if prop_type_eqb (type static_info) wanted && non_null (info_ptr static_info)
  then info_ptr static_info
  else if negb (non_null (info_ptr static_info))
  then None
  else None.

(** [tcam_value_int] and [tcam_value_double], as far as the constructors read
    them. *)
Record tcam_value_int : Type := mk_value_int {
  int_min : Z;
  int_max : Z;
  int_step : Z;
  int_default_value : Z
}.

Record tcam_value_double : Type := mk_value_double {
  double_min : double;
  double_max : double;
  double_step : double;
  double_default_value : double
}.

(** ** [std::map<int, std::string>] *)

(** The entries in iteration order, [begin()] first. *)
Definition std_map : Type := list (Z * string).

Fixpoint ascending (keys : list Z) : bool :=
  match keys with
  | [] => true
  | k :: rest =>
      match rest with
      | [] => true
      | k' :: _ => (k <? k') && ascending rest
      end
  end.

(** The invariant of the container: keys are [int]s, unique, and iteration
    visits them in ascending order. *)
Definition is_std_map (m : std_map) : bool :=
  forallb is_int (map fst m) && ascending (map fst m).

(** [m.find(key)]: the mapped value, [None] for [end()]. *)
Fixpoint find (key : Z) (m : std_map) : option string :=
  match m with
  | [] => None
  | (k, v) :: rest => if k =? key then Some v else find key rest
  end.

(** [m.at(key)] *)
Definition at_key (key : Z) (m : std_map) : completion string :=
  match find key m with
  | Some v => returns v
  | None => aborts std_out_of_range
  end.

(** What the members read through [p_static_info]: the fields [unit] and
    [representation] of [tcamprop1::prop_static_info_integer] and
    [prop_static_info_float], and the enumerator [Linear] of the two
    representation types.  The structs are declared outside the sources, so
    the fields are parameters. *)
Class StaticInfoFields (Info IntRepresentation_t FloatRepresentation_t : Type) : Type := {
  unit_of : Info -> string;
  int_representation_of : Info -> IntRepresentation_t;
  float_representation_of : Info -> FloatRepresentation_t;
  IntLinear : IntRepresentation_t;
  FloatLinear : FloatRepresentation_t
}.

(** ** AFU420PropertyIntegerImpl *)

Module IntegerImpl.
Section Members.
Context {Id Dev Info : Type} `{Cam : AFU420DeviceBackend Id Dev} `{Decl : Declarations Info}.

Record AFU420PropertyIntegerImpl : Type := mk {
  m_cam : weak_ptr;
  m_name : string;
  m_id : Id;
  m_default : Z;
  m_min : Z;
  m_max : Z;
  m_step : Z;
  m_flags : PropertyFlags;
  p_static_info : option Info
}.

(** The constructor. *)
Definition construct (name : string) (i : tcam_value_int) (id : Id) (cam : shared_ptr)
  : AFU420PropertyIntegerImpl :=
  {| m_cam := weak_of cam;
     m_name := name;
     m_id := id;
     m_default := int_default_value i;
     m_min := int_min i;
     m_max := int_max i;
     m_step := int_step i;
     m_flags := flags_or Available Implemented;
     p_static_info := select_static_info Integer (find_prop_static_info name) |}.

Definition get_flags (p : AFU420PropertyIntegerImpl) : PropertyFlags := m_flags p.
Definition get_min (p : AFU420PropertyIntegerImpl) : Z := m_min p.
Definition get_max (p : AFU420PropertyIntegerImpl) : Z := m_max p.

Definition get_value (p : AFU420PropertyIntegerImpl) : M Id Dev (result Z) :=
  ptr <- lock (m_cam p) ;;
  match ptr with
  | backend => ptr_get_int (m_id p)
  | nullptr => ret (failure ResourceNotLockable)
  end.

Definition set_value (p : AFU420PropertyIntegerImpl) (new_value : Z) : M Id Dev (result unit) :=
  ptr <- lock (m_cam p) ;;
  match ptr with
  | backend => ptr_set_int (m_id p) new_value
  | nullptr => ret (failure ResourceNotLockable)
  end.

Definition valid_value (p : AFU420PropertyIntegerImpl) (value : Z) : result unit :=
  if (get_min p >? value) || (value >? get_max p)
  then failure PropertyOutOfBounds
  else success tt.

Context {IntRepresentation_t FloatRepresentation_t : Type}
        `{Fields : StaticInfoFields Info IntRepresentation_t FloatRepresentation_t}.

(** [std::string_view()] is the empty view. *)
Definition get_unit (p : AFU420PropertyIntegerImpl) : string :=
  match p_static_info p with
  | Some info => unit_of info
  | None => EmptyString
  end.

Definition get_representation (p : AFU420PropertyIntegerImpl) : IntRepresentation_t :=
  match p_static_info p with
  | Some info => int_representation_of info
  | None => IntLinear
  end.
End Members.
Arguments AFU420PropertyIntegerImpl : clear implicits.
End IntegerImpl.

(** ** AFU420PropertyDoubleImpl *)

Module DoubleImpl.
Section Members.
Context {Id Dev Info : Type} `{Cam : AFU420DeviceBackend Id Dev} `{Decl : Declarations Info}.

Record AFU420PropertyDoubleImpl : Type := mk {
  m_cam : weak_ptr;
  m_name : string;
  m_id : Id;
  m_default : double;
  m_min : double;
  m_max : double;
  m_step : double;
  m_flags : PropertyFlags;
  p_static_info : option Info
}.

Definition construct (name : string) (d : tcam_value_double) (id : Id) (cam : shared_ptr)
  : AFU420PropertyDoubleImpl :=
  {| m_cam := weak_of cam;
     m_name := name;
     m_id := id;
     m_default := double_default_value d;
     m_min := double_min d;
     m_max := double_max d;
     m_step := double_step d;
     m_flags := flags_or Available Implemented;
     p_static_info := select_static_info Float (find_prop_static_info name) |}.

Definition get_flags (p : AFU420PropertyDoubleImpl) : PropertyFlags := m_flags p.
Definition get_min (p : AFU420PropertyDoubleImpl) : double := m_min p.
Definition get_max (p : AFU420PropertyDoubleImpl) : double := m_max p.

(** The integer the backend reports, converted to [double] on return. *)
Definition get_value (p : AFU420PropertyDoubleImpl) : M Id Dev (result double) :=
  ptr <- lock (m_cam p) ;;
  match ptr with
  | backend =>
      r <- ptr_get_int (m_id p) ;;
      match r with
      | success value => ret (success (int64_to_double value))
      | failure e => ret (failure e)
      end
  | nullptr => ret (failure ResourceNotLockable)
  end.

(** [new_value] is converted to the [int64_t] parameter of [set_int];
    [OUTCOME_TRY] returns the backend's failure as it is. *)
Definition set_value (p : AFU420PropertyDoubleImpl) (new_value : double)
  : M Id Dev (completion (result unit)) :=
  ptr <- lock (m_cam p) ;;
  match ptr with
  | backend =>
      match double_to_int64 new_value with
      | Some v =>
          r <- ptr_set_int (m_id p) v ;;
          match r with
          | success _ => ret (returns (success tt))
          | failure e => ret (returns (failure e))
          end
      | None => ret (aborts undefined_behaviour)
      end
  | nullptr => ret (returns (failure ResourceNotLockable))
  end.

Definition valid_value (p : AFU420PropertyDoubleImpl) (value : double) : result unit :=
  if double_gt (get_min p) value || double_gt value (get_max p)
  then failure PropertyOutOfBounds
  else success tt.

Context {IntRepresentation_t FloatRepresentation_t : Type}
        `{Fields : StaticInfoFields Info IntRepresentation_t FloatRepresentation_t}.

Definition get_unit (p : AFU420PropertyDoubleImpl) : string :=
  match p_static_info p with
  | Some info => unit_of info
  | None => EmptyString
  end.

Definition get_representation (p : AFU420PropertyDoubleImpl) : FloatRepresentation_t :=
  match p_static_info p with
  | Some info => float_representation_of info
  | None => FloatLinear
  end.
End Members.
Arguments AFU420PropertyDoubleImpl : clear implicits.
End DoubleImpl.

(** ** AFU420PropertyBoolImpl *)

Module BoolImpl.
Section Members.
Context {Id Dev Info : Type} `{Cam : AFU420DeviceBackend Id Dev} `{Decl : Declarations Info}.

Record AFU420PropertyBoolImpl : Type := mk {
  m_name : string;
  m_cam : weak_ptr;
  m_default : bool;
  m_value : bool;
  m_id : Id;
  m_flags : PropertyFlags;
  p_static_info : option Info
}.

Definition construct (name : string) (default_value : bool) (id : Id) (cam : shared_ptr)
  : AFU420PropertyBoolImpl :=
  {| m_name := name;
     m_cam := weak_of cam;
     m_default := default_value;
     m_value := default_value;
     m_id := id;
     m_flags := flags_or Available Implemented;
     p_static_info := select_static_info Boolean (find_prop_static_info name) |}.

Definition get_flags (p : AFU420PropertyBoolImpl) : PropertyFlags := m_flags p.

(** [m_value = new_value] *)
Definition assign_m_value (p : AFU420PropertyBoolImpl) (new_value : bool)
  : AFU420PropertyBoolImpl :=
  {| m_name := m_name p;
     m_cam := m_cam p;
     m_default := m_default p;
     m_value := new_value;
     m_id := m_id p;
     m_flags := m_flags p;
     p_static_info := p_static_info p |}.

Definition get_value (p : AFU420PropertyBoolImpl) : M Id Dev (result bool) :=
  ptr <- lock (m_cam p) ;;
  match ptr with
  | backend => ptr_get_bool (m_id p)
  | nullptr => ret (failure ResourceNotLockable)
  end.

(** The only member that changes the property object: the result comes with
    the object as the call leaves it. *)
Definition set_value (p : AFU420PropertyBoolImpl) (new_value : bool)
  : M Id Dev (result unit * AFU420PropertyBoolImpl) :=
  ptr <- lock (m_cam p) ;;
  match ptr with
  | backend =>
      r <- ptr_set_bool (m_id p) new_value ;;
      if has_value r
      then ret (success tt, assign_m_value p new_value)
      else ret (failure UndefinedError, p)
  | nullptr => ret (failure ResourceNotLockable, p)
  end.
End Members.
Arguments AFU420PropertyBoolImpl : clear implicits.
End BoolImpl.

(** ** AFU420PropertyEnumImpl *)

Module EnumImpl.
Section Members.
Context {Id Dev Info : Type} `{Cam : AFU420DeviceBackend Id Dev} `{Decl : Declarations Info}.

Record AFU420PropertyEnumImpl : Type := mk {
  m_entries : std_map;
  m_cam : weak_ptr;
  m_name : string;
  m_id : Id;
  m_flags : PropertyFlags;
  p_static_info : option Info
}.

Definition construct (name : string) (id : Id) (entries : std_map) (cam : shared_ptr)
  : AFU420PropertyEnumImpl :=
  {| m_entries := entries;
     m_cam := weak_of cam;
     m_name := name;
     m_id := id;
     m_flags := flags_or Available Implemented;
     p_static_info := select_static_info Enumeration (find_prop_static_info name) |}.

Definition get_flags (p : AFU420PropertyEnumImpl) : PropertyFlags := m_flags p.

(** [valid_value(int value)] *)
Definition valid_value (p : AFU420PropertyEnumImpl) (value : Z) : bool :=
  match find value (m_entries p) with
  | None => false
  | Some _ => true
  end.

(** [set_value(int64_t new_value)]: the argument of [valid_value] is an
    [int], so the check sees [new_value] converted; [set_int] receives
    [new_value] itself. *)
Definition set_value (p : AFU420PropertyEnumImpl) (new_value : Z) : M Id Dev (result unit) :=
  if negb (valid_value p (to_int new_value))
  then ret (failure PropertyValueDoesNotExist)
  else
    ptr <- lock (m_cam p) ;;
    match ptr with
    | backend => ptr_set_int (m_id p) new_value
    | nullptr => ret (failure ResourceNotLockable)
    end.

(** The loop of [set_value_str], from the iterator [it] on. *)
Fixpoint set_value_str_from (p : AFU420PropertyEnumImpl) (it : std_map) (new_value : string)
  : M Id Dev (result unit) :=
  match it with
  | [] => ret (failure PropertyValueDoesNotExist)
  | (first, second) :: next =>
      if String.eqb second new_value
      then set_value p first
      else set_value_str_from p next new_value
  end.

Definition set_value_str (p : AFU420PropertyEnumImpl) (new_value : string)
  : M Id Dev (result unit) :=
  set_value_str_from p (m_entries p) new_value.

Definition get_value_int (p : AFU420PropertyEnumImpl) : M Id Dev (result Z) :=
  ptr <- lock (m_cam p) ;;
  match ptr with
  | backend => ptr_get_int (m_id p)
  | nullptr => ret (failure ResourceNotLockable)
  end.

(** [OUTCOME_TRY] returns a failure of [get_value_int] as it is; the key of
    [m_entries.at] is an [int], so the code is converted. *)
Definition get_value (p : AFU420PropertyEnumImpl) : M Id Dev (completion (result string)) :=
  r <- get_value_int p ;;
  match r with
  | failure e => ret (returns (failure e))
  | success value =>
      match at_key (to_int value) (m_entries p) with
      | returns label => ret (returns (success label))
      | aborts why => ret (aborts why)
      end
  end.

(** The loop of [get_entries]: one [push_back] per entry. *)
Definition get_entries (p : AFU420PropertyEnumImpl) : list string :=
  fold_left (fun v it => v ++ [snd it]) (m_entries p) [].
End Members.
Arguments AFU420PropertyEnumImpl : clear implicits.
End EnumImpl.

(** ** Concrete backends, declarations and properties *)

Module Examples.
(** A camera that stores what is written: the latest write of an identifier
    comes first. *)
Definition Store : Type := list (nat * Z).

Fixpoint load (id : nat) (d : Store) : Z :=
  match d with
  | [] => 0
  | (k, v) :: rest => if Nat.eqb k id then v else load id rest
  end.

Definition faithful_store : AFU420DeviceBackend nat Store :=
  {| get_int := fun id d => (success (load id d), d);
     set_int := fun id v d => (success tt, (id, v) :: d);
     get_bool := fun id d => (success (negb (load id d =? 0)), d);
     set_bool := fun id v d => (success tt, (id, if v then 1 else 0) :: d) |}.

(** A camera that answers every call with the failure [e] and keeps its
    state. *)
Definition failing (e : status) : AFU420DeviceBackend nat Store :=
  {| get_int := fun _ d => (failure e, d);
     set_int := fun _ _ d => (failure e, d);
     get_bool := fun _ d => (failure e, d);
     set_bool := fun _ _ d => (failure e, d) |}.

(** A registry that knows three names; the descriptor is the unit string, and
    the two flag values are sample bits. *)
Definition registry : Declarations string :=
  {| find_prop_static_info := fun name =>
       if String.eqb name "ExposureTime" then mk_static_info Integer (Some "us"%string)
       else if String.eqb name "Gain" then mk_static_info Float (Some "dB"%string)
       else if String.eqb name "TriggerMode" then mk_static_info Enumeration (Some "mode"%string)
       else mk_static_info Boolean None;
     Available := 2;
     Implemented := 1 |}.

Definition live : World nat Store := mkWorld true [] [].

Definition released : World nat Store := release live.

(** An integer property with range [0, 100] and default 50. *)
Definition exposure : IntegerImpl.AFU420PropertyIntegerImpl nat string :=
  IntegerImpl.construct (Decl := registry) "ExposureTime" (mk_value_int 0 100 1 50) 0%nat backend.

(** A float property over the integer channel 2, range [0.0, 1000.0]. *)
Definition gain : DoubleImpl.AFU420PropertyDoubleImpl nat string :=
  DoubleImpl.construct (Decl := registry) "Gain"
    (mk_value_double (int64_to_double 0) (int64_to_double 1000)
                     (int64_to_double 1) (int64_to_double 0))
    2%nat backend.

Definition table : std_map := [(0, "Off"%string); (1, "Auto"%string); (2, "Manual"%string)].

Definition trigger_mode : EnumImpl.AFU420PropertyEnumImpl nat string :=
  EnumImpl.construct (Decl := registry) "TriggerMode" 1%nat table backend.

(** A boolean property whose name the registry does not know. *)
Definition strobe : BoolImpl.AFU420PropertyBoolImpl nat string :=
  BoolImpl.construct (Decl := registry) "StrobeEnable" false 3%nat backend.

(** The literal [250.7]: the quotient of 2507 by 10, correctly rounded. *)
Definition d250_7 : double :=
  SFdiv prec emax (int64_to_double 2507) (int64_to_double 10).

(** An [int64_t] that is no [int]: [2^32 + 1]. *)
Definition wide_code : Z := 4294967297.
End Examples.

(** ** The source element, [src/gstreamer-1.0/gsttcammainsrc.cpp] *)

Module MainSrc.

(** The value of an integer converted to [guint] (32 bits) and to
    [unsigned long] (64 bits on the platforms the element is built for). *)
Definition to_guint (z : Z) : Z := z mod 2 ^ 32.
Definition to_ulong (z : Z) : Z := z mod 2 ^ 64.

Definition G_MAXINT : Z := 2 ^ 31 - 1.

(** *** Negotiation *)

(** The functions of GStreamer that the loops of [gst_tcam_mainsrc_negotiate]
    call on caps; they belong to the library, so they are parameters.
    [is_any_string] is the test [gst_helper::to_string(ipcaps) == "ANY"]. *)
Class GstCapsFunctions (Caps : Type) : Type := {
  gst_caps_get_size : Caps -> Z;
  gst_caps_copy_nth : Caps -> Z -> Caps;
  gst_caps_is_any : Caps -> bool;
  is_any_string : Caps -> bool;
  gst_caps_is_empty : Caps -> bool;
  gst_caps_intersect_first : Caps -> Caps -> Caps
}.

Section Negotiate.
Context {Caps : Type} `{Gst : GstCapsFunctions Caps}.

(** The loop over the caps of the peer,
    [for (guint i = 0; i <= gst_caps_get_size(peercaps) - 1; i--)], entered
    with the index [i].  The result is the value of [icaps] when the loop is
    left: an intersection that is not empty, or [NULL].  [fuel] bounds the
    number of iterations; [None] says it did not suffice. *)
Fixpoint peer_loop (fuel : nat) (thiscaps peercaps : Caps) (i : Z)
  : option (option Caps) :=
  match fuel with
  | O => None
  | S fuel' =>
      if i <=? to_guint (gst_caps_get_size peercaps - 1)
      then
        let ipcaps := gst_caps_copy_nth peercaps i in
        let is_any_caps := is_any_string ipcaps in
        if gst_caps_is_any ipcaps || is_any_caps
        then peer_loop fuel' thiscaps peercaps (to_guint (i - 1))
        else
          let icaps := gst_caps_intersect_first thiscaps ipcaps in
          if negb (gst_caps_is_empty icaps)
          then Some (Some icaps)
          else peer_loop fuel' thiscaps peercaps (to_guint (i - 1))
      else Some None
  end.
End Negotiate.

(** What the walk reads of a structure: its width and height when
    [gst_structure_get_int] finds both, nothing otherwise. *)
Definition Dimensions : Type := option (Z * Z).

(** The body of the backward walk at the structure [i]: the running
    [width], [height] and [best]. *)
Definition consider (twidth theight : Z) (acc : Z * Z * Z) (i : Z) (st : Dimensions)
  : Z * Z * Z :=
  let '(width, height, best) := acc in
  match st with
  | Some (w, h) =>
      if (w >=? twidth) && (w <=? width) && (h >=? theight) && (h <=? height)
      then (w, h, i)
      else acc
  | None => acc
  end.

(** [for (gint i = (gint)gst_caps_get_size(icaps) - 1; i >= 0; i--)], from
    the index [n - 1] down to 0. *)
Fixpoint walk_backwards (twidth theight : Z) (icaps : list Dimensions) (n : nat)
    (acc : Z * Z * Z) : Z * Z * Z :=
  match n with
  | O => acc
  | S i =>
      walk_backwards twidth theight icaps i
        (consider twidth theight acc (Z.of_nat i) (nth i icaps None))
  end.

(** The choice among several intersections: [target] is what the first
    structure of the peer gives for width and height. *)
Definition choose_best (target : Dimensions) (icaps : list Dimensions) : Z * Z * Z :=
  match target with
  | Some (twidth, theight) =>
      walk_backwards twidth theight icaps (List.length icaps) (G_MAXINT, G_MAXINT, 0)
  | None => (G_MAXINT, G_MAXINT, 0)
  end.

(** *** Streaming *)

Inductive GstFlowReturn : Type :=
| GST_FLOW_OK
| GST_FLOW_EOS.

(** What the element sends out besides buffers: the two error messages of the
    device-lost callback and the end-of-stream event. *)
Inductive Signal : Type :=
| ElementError
| ElementErrorWithDetails
| EosEvent.

(** The fields of [GstTcamMainSrc] and of its [device_state] that the
    streaming functions use.  [queue] is [self->device->queue], front first;
    [frame_count] is the static local of [gst_tcam_mainsrc_create], one per
    process and never reset; [sent] records the messages and events sent. *)
Record GstTcamMainSrc (Buffer : Type) : Type := mkSrc {
  n_buffers : Z;
  imagesink_buffers : Z;
  drop_incomplete_frames : bool;
  is_running : bool;
  queue : list Buffer;
  has_sink : bool;
  sink_drop_incomplete : list bool;
  frame_count : Z;
  sent : list Signal
}.
Arguments mkSrc {Buffer}.
Arguments n_buffers {Buffer} _.
Arguments imagesink_buffers {Buffer} _.
Arguments drop_incomplete_frames {Buffer} _.
Arguments is_running {Buffer} _.
Arguments queue {Buffer} _.
Arguments has_sink {Buffer} _.
Arguments sink_drop_incomplete {Buffer} _.
Arguments frame_count {Buffer} _.
Arguments sent {Buffer} _.

Section Streaming.
Context {Buffer : Type}.

Definition set_running (v : bool) (s : GstTcamMainSrc Buffer) : GstTcamMainSrc Buffer :=
  mkSrc (n_buffers s) (imagesink_buffers s) (drop_incomplete_frames s) v (queue s)
        (has_sink s) (sink_drop_incomplete s) (frame_count s) (sent s).

Definition set_queue (q : list Buffer) (s : GstTcamMainSrc Buffer) : GstTcamMainSrc Buffer :=
  mkSrc (n_buffers s) (imagesink_buffers s) (drop_incomplete_frames s) (is_running s) q
        (has_sink s) (sink_drop_incomplete s) (frame_count s) (sent s).

Definition set_frame_count (c : Z) (s : GstTcamMainSrc Buffer) : GstTcamMainSrc Buffer :=
  mkSrc (n_buffers s) (imagesink_buffers s) (drop_incomplete_frames s) (is_running s)
        (queue s) (has_sink s) (sink_drop_incomplete s) c (sent s).

Definition send (signals : list Signal) (s : GstTcamMainSrc Buffer) : GstTcamMainSrc Buffer :=
  mkSrc (n_buffers s) (imagesink_buffers s) (drop_incomplete_frames s) (is_running s)
        (queue s) (has_sink s) (sink_drop_incomplete s) (frame_count s)
        (sent s ++ signals).

(** [gst_tcam_mainsrc_sh_callback] *)
Definition sh_callback (buffer : Buffer) (s : GstTcamMainSrc Buffer)
  : GstTcamMainSrc Buffer :=
  if negb (is_running s) then s
  else set_queue (queue s ++ [buffer]) s.

(** [gst_tcam_mainsrc_unlock] *)
Definition unlock (s : GstTcamMainSrc Buffer) : GstTcamMainSrc Buffer :=
  set_running false s.

(** [gst_tcam_mainsrc_device_lost_callback]; [with_details] says whether the
    element is compiled against GStreamer 1.10 or later, where the second
    error message is posted too. *)
Definition device_lost_callback (with_details : bool) (s : GstTcamMainSrc Buffer)
  : GstTcamMainSrc Buffer :=
  if negb (is_running s) then s
  else
    let s1 := send [ElementError] s in
    let s2 := if with_details then send [ElementErrorWithDetails] s1 else s1 in
    send [EosEvent] (set_running false s2).

(** How a call of [gst_tcam_mainsrc_create] ends: with a buffer, with
    end-of-stream, or inside [cv.wait], from which only another thread can
    take it. *)
Inductive Created : Type :=
| Delivered (ptr : Buffer)
| EndOfStream
| Waits.

Definition flow_return (c : Created) : option GstFlowReturn :=
  match c with
  | Delivered _ => Some GST_FLOW_OK
  | EndOfStream => Some GST_FLOW_EOS
  | Waits => None
  end.

(** From the label [wait_again] on. *)
Definition wait_again (s : GstTcamMainSrc Buffer) : Created * GstTcamMainSrc Buffer :=
  match is_running s, queue s with
  | true, [] => (Waits, s)
  | false, _ => (EndOfStream, s)
  | true, ptr :: rest => (Delivered ptr, set_queue rest s)
  end.

(** [gst_tcam_mainsrc_create] *)
Definition create (s : GstTcamMainSrc Buffer) : Created * GstTcamMainSrc Buffer :=
  if negb (n_buffers s =? -1)
  then
    if frame_count s >=? to_guint (n_buffers s)
    then (EndOfStream, s)
    else wait_again (set_frame_count (to_ulong (frame_count s + 1)) s)
  else wait_again s.

(** The calls that reach the element while it streams. *)
Inductive Call : Type :=
| call_sh_callback (buffer : Buffer)
| call_create
| call_unlock
| call_device_lost (with_details : bool).

(** A schedule of calls, each taken when it returns; the buffers delivered
    are collected in order.  A schedule in which [create] would have to wait
    for a later call has no result: the waiting call is the later one. *)
Fixpoint run (calls : list Call) (s : GstTcamMainSrc Buffer)
  : option (list Buffer * GstTcamMainSrc Buffer) :=
  match calls with
  | [] => Some ([], s)
  | call_sh_callback buffer :: rest => run rest (sh_callback buffer s)
  | call_unlock :: rest => run rest (unlock s)
  | call_device_lost with_details :: rest => run rest (device_lost_callback with_details s)
  | call_create :: rest =>
      match create s with
      | (Delivered ptr, s') =>
          match run rest s' with
          | Some (out, s'') => Some (ptr :: out, s'')
          | None => None
          end
      | (EndOfStream, s') => run rest s'
      | (Waits, _) => None
      end
  end.

(** The buffers handed to [sh_callback] by a schedule. *)
Fixpoint pushed (calls : list Call) : list Buffer :=
  match calls with
  | [] => []
  | call_sh_callback buffer :: rest => buffer :: pushed rest
  | _ :: rest => pushed rest
  end.
End Streaming.

(** *** Element properties *)

(** [GstState] and [GstStateChangeReturn], as [gst_element_get_state] gives
    them. *)
Inductive GstState : Type :=
| GST_STATE_VOID_PENDING
| GST_STATE_NULL
| GST_STATE_READY
| GST_STATE_PAUSED
| GST_STATE_PLAYING.

Inductive GstStateChangeReturn : Type :=
| GST_STATE_CHANGE_FAILURE
| GST_STATE_CHANGE_SUCCESS
| GST_STATE_CHANGE_ASYNC
| GST_STATE_CHANGE_NO_PREROLL.

Definition is_success (r : GstStateChangeReturn) : bool :=
  match r with
  | GST_STATE_CHANGE_SUCCESS => true
  | _ => false
  end.

Definition is_null (st : GstState) : bool :=
  match st with
  | GST_STATE_NULL => true
  | _ => false
  end.

(** The cases of [gst_tcam_mainsrc_set_property] that write fields of the
    element itself, each with the value of its type. *)
Inductive Setting : Type :=
| PROP_CAM_BUFFERS (value : Z)
| PROP_NUM_BUFFERS (value : Z)
| PROP_DROP_INCOMPLETE_FRAMES (value : bool).

(** The same cases of [gst_tcam_mainsrc_get_property]. *)
Inductive Name : Type :=
| CAM_BUFFERS
| NUM_BUFFERS
| DROP_INCOMPLETE_FRAMES.

Definition name_of (p : Setting) : Name :=
  match p with
  | PROP_CAM_BUFFERS _ => CAM_BUFFERS
  | PROP_NUM_BUFFERS _ => NUM_BUFFERS
  | PROP_DROP_INCOMPLETE_FRAMES _ => DROP_INCOMPLETE_FRAMES
  end.

Inductive GValue : Type :=
| g_int (v : Z)
| g_boolean (v : bool).

Definition value_of (p : Setting) : GValue :=
  match p with
  | PROP_CAM_BUFFERS v | PROP_NUM_BUFFERS v => g_int v
  | PROP_DROP_INCOMPLETE_FRAMES v => g_boolean v
  end.

Section ElementProperties.
Context {Buffer : Type}.

(** [gst_tcam_mainsrc_set_property]; [ret] and [state] are what
    [gst_element_get_state] answers. *)
Definition set_property (p : Setting) (ret : GstStateChangeReturn) (state : GstState)
    (s : GstTcamMainSrc Buffer) : GstTcamMainSrc Buffer :=
  match p with
  | PROP_CAM_BUFFERS value =>
      if negb (is_success ret) && negb (is_null state)
      then s
      else mkSrc (n_buffers s) value (drop_incomplete_frames s) (is_running s) (queue s)
                 (has_sink s) (sink_drop_incomplete s) (frame_count s) (sent s)
  | PROP_NUM_BUFFERS value =>
      mkSrc value (imagesink_buffers s) (drop_incomplete_frames s) (is_running s) (queue s)
            (has_sink s) (sink_drop_incomplete s) (frame_count s) (sent s)
  | PROP_DROP_INCOMPLETE_FRAMES value =>
      mkSrc (n_buffers s) (imagesink_buffers s) value (is_running s) (queue s)
            (has_sink s)
            (if has_sink s then sink_drop_incomplete s ++ [value]
             else sink_drop_incomplete s)
            (frame_count s) (sent s)
  end.

(** [gst_tcam_mainsrc_get_property] *)
Definition get_property (n : Name) (s : GstTcamMainSrc Buffer) : GValue :=
  match n with
  | CAM_BUFFERS => g_int (imagesink_buffers s)
  | NUM_BUFFERS => g_int (n_buffers s)
  | DROP_INCOMPLETE_FRAMES => g_boolean (drop_incomplete_frames s)
  end.
End ElementProperties.
End MainSrc.

(** ** Concrete caps and a concrete element *)

Module MainSrcExamples.
(** Caps as lists of numbered structures: intersecting keeps the structures
    of the first list that the second has too. *)
Definition list_caps : MainSrc.GstCapsFunctions (list nat) :=
  {| MainSrc.gst_caps_get_size := fun c => Z.of_nat (List.length c);
     MainSrc.gst_caps_copy_nth := fun c i => firstn 1 (skipn (Z.to_nat i) c);
     MainSrc.gst_caps_is_any := fun _ => false;
     MainSrc.is_any_string := fun _ => false;
     MainSrc.gst_caps_is_empty := fun c => match c with [] => true | _ => false end;
     MainSrc.gst_caps_intersect_first :=
       fun a b => filter (fun x => existsb (Nat.eqb x) b) a |}.

(** Four intersections, one of them without dimensions. *)
Definition sizes : list MainSrc.Dimensions :=
  [Some (1920, 1080); Some (640, 480); None; Some (1280, 720)].

(** A running element with two buffers queued and a limit of three. *)
Definition streaming : MainSrc.GstTcamMainSrc nat :=
  MainSrc.mkSrc 3 10 true true [7%nat; 8%nat] true [] 0 [].
End MainSrcExamples.

(** ** Notions the properties are stated with *)

Section Faithful.
Context {Id Dev : Type} `{Cam : AFU420DeviceBackend Id Dev}.

(** The backend keeps the integer written under [id]: a [get_int] that
    follows a successful [set_int] reports the written value. *)
Definition remembers_int (id : Id) : Prop :=
  forall (v : Z) (d : Dev),
    fst (set_int id v d) = success tt ->
    fst (get_int id (snd (set_int id v d))) = success v.

Definition remembers_bool (id : Id) : Prop :=
  forall (v : bool) (d : Dev),
    fst (set_bool id v d) = success tt ->
    fst (get_bool id (snd (set_bool id v d))) = success v.
End Faithful.

(** The calls that do not write. *)
Definition is_read {Id : Type} (c : BackendCall Id) : bool :=
  match c with
  | GetInt _ | GetBool _ => true
  | SetInt _ _ | SetBool _ _ => false
  end.


(** The code that the loop of [set_value_str] stops at: the one of the first
    entry, in iteration order, that carries the label. *)
Fixpoint first_code (label : string) (it : std_map) : option Z :=
  match it with
  | [] => None
  | (first, second) :: next =>
      if String.eqb second label then Some first else first_code label next
  end.

(** What the backward walk of the negotiation has established when the
    structures from [k] on have been considered. *)
Definition walked (twidth theight : Z) (icaps : list MainSrc.Dimensions)
    (k : nat) (acc : Z * Z * Z) : Prop :=
  let '(width, height, best) := acc in
  0 <= best /\
  ((acc = (MainSrc.G_MAXINT, MainSrc.G_MAXINT, 0) /\
    forall (j : nat) (w h : Z),
      (k <= j)%nat -> nth j icaps None = Some (w, h) -> ~ (twidth <= w /\ theight <= h)) \/
   (Z.of_nat k <= best /\
    nth (Z.to_nat best) icaps None = Some (width, height) /\
    twidth <= width /\ theight <= height)) /\
  (forall (j : nat) (w h : Z),
      (k <= j)%nat -> nth j icaps None = Some (w, h) ->
      twidth <= w -> theight <= h -> w <= width -> h <= height ->
      w = width /\ h = height /\ best <= Z.of_nat j).

(** The static counter as a call of [gst_tcam_mainsrc_create] leaves it. *)
Definition counted {Buffer : Type} (s : MainSrc.GstTcamMainSrc Buffer) : Z :=
  if negb (MainSrc.n_buffers s =? -1)
     && (MainSrc.frame_count s <? MainSrc.to_guint (MainSrc.n_buffers s))
  then MainSrc.to_ulong (MainSrc.frame_count s + 1)
  else MainSrc.frame_count s.

(** * Properties *)

(** ** The container *)

Lemma ascending_sorted (keys : list Z) :
  ascending keys = true -> StronglySorted Z.lt keys.
Proof.
  intros Hasc. apply Sorted_StronglySorted.
  - intros a b c. apply Z.lt_trans.
  - induction keys as [| k rest IH]; constructor.
    + apply IH. destruct rest as [| k' rest']; [reflexivity |].
      simpl in Hasc. apply andb_prop in Hasc. apply Hasc.
    + destruct rest as [| k' rest']; constructor.
      simpl in Hasc. apply andb_prop in Hasc. apply Z.ltb_lt, Hasc.
Qed.

Lemma find_some_in (key : Z) (label : string) (m : std_map) :
  find key m = Some label -> In (key, label) m.
Proof.
  induction m as [| [k v] rest IH]; simpl; [discriminate |].
  destruct (Z.eqb_spec k key) as [-> | _].
  - intros [= ->]. now left.
  - intros H. right. now apply IH.
Qed.

Lemma in_find_some (key : Z) (label : string) (m : std_map) :
  StronglySorted Z.lt (map fst m) -> In (key, label) m -> find key m = Some label.
Proof.
  induction m as [| [k v] rest IH]; simpl; [contradiction |].
  intros Hs [Heq | Hin].
  - injection Heq as -> ->. now rewrite Z.eqb_refl.
  - inversion Hs as [| ? ? Hrest Hall]; subst.
    destruct (Z.eqb_spec k key) as [-> | _].
    + rewrite Forall_forall in Hall.
      specialize (Hall key (in_map fst _ _ Hin)). simpl in Hall. lia.
    + now apply IH.
Qed.

Lemma push_back_all (m : std_map) (v : list string) :
  fold_left (fun v it => v ++ [snd it]) m v = v ++ map snd m.
Proof.
  revert v. induction m as [| it rest IH]; intros v; simpl.
  - now rewrite app_nil_r.
  - rewrite IH, <- app_assoc. reflexivity.
Qed.

Lemma to_int_of_int (z : Z) : is_int z = true -> to_int z = z.
Proof.
  unfold is_int, to_int. intros H. apply andb_prop in H. destruct H as [Hlo Hhi].
  apply Z.leb_le in Hlo. apply Z.ltb_lt in Hhi.
  rewrite Z.mod_small; lia.
Qed.

Lemma is_std_map_sorted (m : std_map) :
  is_std_map m = true -> StronglySorted Z.lt (map fst m).
Proof.
  unfold is_std_map. intros H. apply andb_prop in H. now apply ascending_sorted.
Qed.

Lemma is_std_map_keys (m : std_map) (key : Z) (label : string) :
  is_std_map m = true -> In (key, label) m -> is_int key = true.
Proof.
  unfold is_std_map. intros H Hin. apply andb_prop in H. destruct H as [Hall _].
  rewrite forallb_forall in Hall. apply Hall. now apply (in_map fst) in Hin.
Qed.

(** ** Comparisons of doubles *)

Lemma SFcompare_swap (a b : double) :
  SFcompare b a = option_map CompOpp (SFcompare a b).
Proof.
  destruct a as [sa | sa | | sa ma ea], b as [sb | sb | | sb mb eb]; simpl;
    try reflexivity;
    try (destruct sa; reflexivity);
    try (destruct sb; reflexivity);
    try (destruct sa, sb; reflexivity).
  rewrite (Z.compare_antisym ea eb).
  change (Pos.compare_cont Eq mb ma) with (Pos.compare_cont (CompOpp Eq) mb ma).
  rewrite <- (Pos.compare_cont_antisym ma mb Eq).
  destruct sa, sb; simpl; try reflexivity;
    destruct (ea ?= eb); simpl; try reflexivity;
    destruct (Pos.compare_cont Eq ma mb); reflexivity.
Qed.

Lemma SFcompare_defined (a b : double) :
  is_nan a = false -> is_nan b = false -> exists c, SFcompare a b = Some c.
Proof.
  destruct a, b; simpl; intros Ha Hb; try discriminate; eexists; reflexivity.
Qed.

(** Away from NaN, [a > b] is the negation of [a <= b]. *)
Lemma double_gt_not_le (a b : double) :
  is_nan a = false -> is_nan b = false -> double_gt a b = negb (double_le a b).
Proof.
  intros Ha Hb. unfold double_gt, double_le, SFltb, SFleb.
  rewrite (SFcompare_swap a b).
  destruct (SFcompare_defined a b Ha Hb) as [c ->]. now destruct c.
Qed.

Lemma double_gt_nan_l (b : double) : double_gt S754_nan b = false.
Proof. now destruct b. Qed.

Lemma double_gt_nan_r (a : double) : double_gt a S754_nan = false.
Proof. now destruct a. Qed.

(** ** Conversions between [int64_t] and [double] *)

Lemma digits2_pos_bounds (p : positive) :
  2 ^ (Zpos (digits2_pos p) - 1) <= Zpos p < 2 ^ Zpos (digits2_pos p).
Proof.
  induction p as [p IH | p IH |]; cbn [digits2_pos].
  - rewrite Pos2Z.inj_succ.
    replace (Z.succ (Zpos (digits2_pos p)) - 1) with (Z.succ (Zpos (digits2_pos p) - 1)) by lia.
    rewrite !Z.pow_succ_r by lia. lia.
  - rewrite Pos2Z.inj_succ.
    replace (Z.succ (Zpos (digits2_pos p)) - 1) with (Z.succ (Zpos (digits2_pos p) - 1)) by lia.
    rewrite !Z.pow_succ_r by lia. lia.
  - simpl. lia.
Qed.

Lemma iter_xO_value (p n : positive) :
  Zpos (Pos.iter xO p n) = Zpos p * 2 ^ Zpos n.
Proof.
  induction n as [| n IH] using Pos.peano_ind.
  - simpl. lia.
  - rewrite Pos.iter_succ, Pos2Z.inj_xO, IH, Pos2Z.inj_succ, Z.pow_succ_r by lia. lia.
Qed.

Lemma iter_xO_digits (p n : positive) :
  digits2_pos (Pos.iter xO p n) = (digits2_pos p + n)%positive.
Proof.
  induction n as [| n IH] using Pos.peano_ind.
  - simpl. lia.
  - rewrite Pos.iter_succ. cbn [digits2_pos]. rewrite IH. lia.
Qed.

Lemma fexp_double (k : Z) : -1021 <= k -> fexp prec emax k = k - 53.
Proof. unfold fexp, emin, prec, emax. lia. Qed.

Lemma binary_round_aux_canonical (s : bool) (m : positive) (e : Z) :
  fexp prec emax (Zpos (digits2_pos m) + e) = e ->
  e <= emax - prec ->
  binary_round_aux prec emax s (Zpos m) e loc_Exact = S754_finite s m e.
Proof.
  intros Hcanon Hmax.
  assert (Hshr : shr_fexp prec emax (Zpos m) e loc_Exact
                 = ({| shr_m := Zpos m; shr_r := false; shr_s := false |}, e)).
  { unfold shr_fexp. cbn [Zdigits2]. rewrite Hcanon, Z.sub_diag. reflexivity. }
  unfold binary_round_aux. rewrite Hshr. cbn [shr_m loc_of_shr_record round_nearest_even].
  rewrite Hshr. cbn [shr_m].
  apply Z.leb_le in Hmax. now rewrite Hmax.
Qed.

Lemma binary_round_integer (s : bool) (p : positive) :
  Zpos p < 2 ^ 53 ->
  represents (binary_round prec emax s p 0) (if s then Zneg p else Zpos p).
Proof.
  intros Hp.
  pose proof (digits2_pos_bounds p) as [Hlo Hhi].
  assert (Hd : Zpos (digits2_pos p) <= 53).
  { destruct (Z.le_gt_cases (Zpos (digits2_pos p)) 53) as [H | H]; [exact H |].
    exfalso. assert (2 ^ 53 <= 2 ^ (Zpos (digits2_pos p) - 1)) by (apply Z.pow_le_mono_r; lia).
    lia. }
  unfold binary_round. rewrite Z.add_0_r, fexp_double by lia.
  unfold shl_align. rewrite Z.sub_0_r.
  destruct (Zpos (digits2_pos p) - 53) as [| k | k] eqn:Hk; try lia.
  - rewrite binary_round_aux_canonical.
    + simpl. destruct s; lia.
    + rewrite Z.add_0_r, fexp_double; lia.
    + unfold emax, prec. lia.
  - rewrite binary_round_aux_canonical.
    + cbn [represents]. rewrite iter_xO_value.
      rewrite Z.max_l by lia. rewrite Z.max_r by lia.
      change (- Z.neg k) with (Zpos k). rewrite Z.pow_0_r.
      destruct s; lia.
    + rewrite iter_xO_digits, Pos2Z.inj_add, fexp_double; lia.
    + unfold emax, prec. lia.
Qed.

Lemma int64_to_double_exact (x : Z) :
  Z.abs x <= 2 ^ 53 -> represents (int64_to_double x) x.
Proof.
  intros Hx. unfold int64_to_double, binary_normalize.
  destruct x as [| p | p].
  - reflexivity.
  - destruct (Z.eq_dec (Zpos p) (2 ^ 53)) as [Heq | Hne].
    + injection Heq as ->. vm_compute. reflexivity.
    + apply (binary_round_integer false). lia.
  - destruct (Z.eq_dec (Zpos p) (2 ^ 53)) as [Heq | Hne].
    + injection Heq as ->. vm_compute. reflexivity.
    + apply (binary_round_integer true). lia.
Qed.


Lemma some_eq (a b : Z) : Some a = Some b -> a = b.
Proof. intros H. now injection H. Qed.

(** Truncation is toward zero: [z] has the sign of the double and the largest
    magnitude that does not exceed [m * 2^e]. *)
Lemma truncate_toward_zero (s : bool) (m : positive) (e z : Z) :
  truncate (S754_finite s m e) = Some z ->
  z = (if s then - Z.abs z else Z.abs z) /\
  Z.abs z * 2 ^ Z.max 0 (- e) <= Zpos m * 2 ^ Z.max 0 e
    < (Z.abs z + 1) * 2 ^ Z.max 0 (- e).
Proof.
  intros Hz.
  assert (Hmag : z = (if s then -1 else 1) *
                     match e with
                     | Z0 => Zpos m
                     | Zpos _ => Zpos m * 2 ^ e
                     | Zneg _ => Zpos m / 2 ^ (- e)
                     end).
  { unfold truncate in Hz. apply some_eq in Hz. rewrite <- Hz. destruct s; lia. }
  clear Hz. subst z.
  destruct e as [| k | k].
  - change (- 0) with 0. rewrite Z.max_id, Z.pow_0_r. destruct s; lia.
  - rewrite (Z.max_l 0 (- Zpos k)) by lia. rewrite (Z.max_r 0 (Zpos k)) by lia.
    rewrite Z.pow_0_r.
    assert (Hpow : 0 < 2 ^ Zpos k) by (apply Z.pow_pos_nonneg; lia).
    destruct s; nia.
  - change (- Z.neg k) with (Zpos k).
    rewrite (Z.max_r 0 (Zpos k)) by lia. rewrite (Z.max_l 0 (Z.neg k)) by lia.
    rewrite Z.pow_0_r.
    assert (Hpow : 0 < 2 ^ Zpos k) by (apply Z.pow_pos_nonneg; lia).
    pose proof (Z.div_pos (Zpos m) (2 ^ Zpos k) ltac:(lia) Hpow) as Hq.
    pose proof (Z.mul_div_le (Zpos m) (2 ^ Zpos k) Hpow) as Hle.
    pose proof (Z.mul_succ_div_gt (Zpos m) (2 ^ Zpos k) Hpow) as Hgt.
    destruct s; rewrite ?Z.abs_opp, Z.abs_eq by lia; split; try lia; nia.
Qed.

(** ** Members of the four classes, for every backend and registry *)

Section Properties.
Context {Id Dev Info : Type} `{Cam : AFU420DeviceBackend Id Dev} `{Decl : Declarations Info}.

Ltac run := unfold bind, ret, ptr_get_int, ptr_set_int, ptr_get_bool, ptr_set_bool, through.

Lemma lock_released (m : weak_ptr) (w : World Id Dev) :
  owned w = false -> lock m w = (nullptr, w).
Proof.
  intros Hw. unfold lock. rewrite Hw. now destruct (observed m).
Qed.

Lemma lock_owned (w : World Id Dev) :
  owned w = true -> lock (weak_of backend) w = (backend, w).
Proof.
  intros Hw. unfold lock. simpl. now rewrite Hw.
Qed.

Lemma lock_keeps_world (m : weak_ptr) (w : World Id Dev) : snd (lock m w) = w.
Proof. reflexivity. Qed.

Lemma in_range_result (b : bool) (P : Prop) :
  (b = true <-> P) ->
  ((if b then success tt else failure PropertyOutOfBounds) = success tt <-> P) /\
  (~ P -> (if b then success tt else failure PropertyOutOfBounds)
          = failure PropertyOutOfBounds).
Proof.
  intros Hb. destruct b; split.
  - split; [intros _; now apply Hb | reflexivity].
  - intros HP. exfalso. apply HP. now apply Hb.
  - split; [discriminate | intros HP; apply Hb in HP; discriminate].
  - reflexivity.
Qed.

(** *** Integer *)

(** [set_value] never consults the range: with a lockable backend it is
    the backend's [set_int] on the value as given. *)
Lemma integer_set_value_forwards (p : IntegerImpl.AFU420PropertyIntegerImpl Id Info)
    (v : Z) (w : World Id Dev) :
  fst (lock (IntegerImpl.m_cam p) w) = backend ->
  IntegerImpl.set_value p v w =
    (fst (set_int (IntegerImpl.m_id p) v (device w)),
     mkWorld (owned w) (snd (set_int (IntegerImpl.m_id p) v (device w)))
             (calls w ++ [SetInt (IntegerImpl.m_id p) v])).
Proof.
  unfold IntegerImpl.set_value. run.
  destruct (lock (IntegerImpl.m_cam p) w) as [ptr w'] eqn:Hlock.
  pose proof (lock_keeps_world (IntegerImpl.m_cam p) w) as Hw.
  rewrite Hlock in Hw. simpl in Hw. subst w'. simpl. intros ->.
  now destruct (set_int (IntegerImpl.m_id p) v (device w)).
Qed.

Lemma integer_valid_value_spec (p : IntegerImpl.AFU420PropertyIntegerImpl Id Info) (v : Z) :
  IntegerImpl.valid_value p v =
    if (IntegerImpl.get_min p <=? v) && (v <=? IntegerImpl.get_max p)
    then success tt else failure PropertyOutOfBounds.
Proof.
  unfold IntegerImpl.valid_value.
  rewrite !Z.gtb_ltb.
  destruct (Z.ltb_spec v (IntegerImpl.get_min p)),
           (Z.ltb_spec (IntegerImpl.get_max p) v),
           (Z.leb_spec (IntegerImpl.get_min p) v),
           (Z.leb_spec v (IntegerImpl.get_max p)); simpl; try reflexivity; lia.
Qed.

(** *** Float *)

Lemma double_valid_value_spec (p : DoubleImpl.AFU420PropertyDoubleImpl Id Info) (v : double) :
  is_nan v = false ->
  is_nan (DoubleImpl.get_min p) = false ->
  is_nan (DoubleImpl.get_max p) = false ->
  DoubleImpl.valid_value p v =
    if double_le (DoubleImpl.get_min p) v && double_le v (DoubleImpl.get_max p)
    then success tt else failure PropertyOutOfBounds.
Proof.
  intros Hv Hmin Hmax. unfold DoubleImpl.valid_value.
  rewrite (double_gt_not_le _ _ Hmin Hv), (double_gt_not_le _ _ Hv Hmax).
  now destruct (double_le (DoubleImpl.get_min p) v),
               (double_le v (DoubleImpl.get_max p)).
Qed.

Lemma double_valid_value_nan (p : DoubleImpl.AFU420PropertyDoubleImpl Id Info) :
  DoubleImpl.valid_value p S754_nan = success tt.
Proof.
  unfold DoubleImpl.valid_value.
  now rewrite double_gt_nan_l, double_gt_nan_r.
Qed.

(** C2, as the code has it.  [valid_value] of the Integer variant succeeds
    exactly on [get_min() <= v <= get_max()], both ends included, and is
    [PropertyOutOfBounds] otherwise; so does [valid_value] of the Float
    variant whenever the value and both bounds are numbers.  A NaN value is
    outside every range and is accepted all the same. *)
Theorem valid_value_inclusive
    (pi : IntegerImpl.AFU420PropertyIntegerImpl Id Info) (vi : Z)
    (pd : DoubleImpl.AFU420PropertyDoubleImpl Id Info) (vd : double)
    (Hv : is_nan vd = false)
    (Hmin : is_nan (DoubleImpl.get_min pd) = false)
    (Hmax : is_nan (DoubleImpl.get_max pd) = false) :
  (IntegerImpl.valid_value pi vi = success tt <->
     IntegerImpl.get_min pi <= vi <= IntegerImpl.get_max pi) /\
  (~ (IntegerImpl.get_min pi <= vi <= IntegerImpl.get_max pi) ->
     IntegerImpl.valid_value pi vi = failure PropertyOutOfBounds) /\
  (DoubleImpl.valid_value pd vd = success tt <->
     double_le (DoubleImpl.get_min pd) vd = true /\
     double_le vd (DoubleImpl.get_max pd) = true) /\
  (~ (double_le (DoubleImpl.get_min pd) vd = true /\
      double_le vd (DoubleImpl.get_max pd) = true) ->
     DoubleImpl.valid_value pd vd = failure PropertyOutOfBounds) /\
  DoubleImpl.valid_value pd S754_nan = success tt /\
  double_le (DoubleImpl.get_min pd) S754_nan = false.
Proof.
  rewrite integer_valid_value_spec, (double_valid_value_spec pd vd Hv Hmin Hmax).
  destruct (in_range_result
              ((IntegerImpl.get_min pi <=? vi) && (vi <=? IntegerImpl.get_max pi))
              (IntegerImpl.get_min pi <= vi <= IntegerImpl.get_max pi)) as [Hi1 Hi2].
  { rewrite andb_true_iff, !Z.leb_le. reflexivity. }
  destruct (in_range_result
              (double_le (DoubleImpl.get_min pd) vd && double_le vd (DoubleImpl.get_max pd))
              (double_le (DoubleImpl.get_min pd) vd = true /\
               double_le vd (DoubleImpl.get_max pd) = true)) as [Hd1 Hd2].
  { apply andb_true_iff. }
  split; [exact Hi1 |]. split; [exact Hi2 |].
  split; [exact Hd1 |]. split; [exact Hd2 |].
  split; [apply double_valid_value_nan |].
  unfold double_le, SFleb. now destruct (DoubleImpl.get_min pd).
Qed.
(** *** Boolean *)

(** C7.  [set_value] of the Boolean variant succeeds exactly when the
    backend can be locked and its [set_bool] succeeds; then, and only then,
    [m_value] becomes the written value.  On a failure of the backend and on
    [ResourceNotLockable] the property object is left as it was. *)
Theorem bool_set_value_updates_mirror_only_on_success
    (p : BoolImpl.AFU420PropertyBoolImpl Id Info) (v : bool) (w : World Id Dev) :
  let '(r, p', w') := BoolImpl.set_value p v w in
  (r = success tt <->
     fst (lock (BoolImpl.m_cam p) w) = backend /\
     has_value (fst (set_bool (BoolImpl.m_id p) v (device w))) = true) /\
  (r = success tt ->
     p' = BoolImpl.assign_m_value p v /\ BoolImpl.m_value p' = v) /\
  (r <> success tt ->
     p' = p /\ BoolImpl.m_value p' = BoolImpl.m_value p) /\
  (fst (lock (BoolImpl.m_cam p) w) = nullptr ->
     r = failure ResourceNotLockable /\ p' = p /\ w' = w).
Proof.
  unfold BoolImpl.set_value. run.
  destruct (lock (BoolImpl.m_cam p) w) as [ptr w0] eqn:Hlock.
  pose proof (lock_keeps_world (BoolImpl.m_cam p) w) as Hw.
  rewrite Hlock in Hw. simpl in Hw. subst w0. simpl.
  destruct ptr.
  - repeat split; try congruence; try discriminate.
    intros [Hptr _]. discriminate.
  - destruct (set_bool (BoolImpl.m_id p) v (device w)) as [r d]. simpl.
    destruct r as [[] | e]; simpl; repeat split; try congruence; try discriminate.
    intros [_ Hfalse]. discriminate.
Qed.

(** *** Enumeration *)

Lemma get_entries_labels (p : EnumImpl.AFU420PropertyEnumImpl Id Info) :
  EnumImpl.get_entries p = map snd (EnumImpl.m_entries p).
Proof. unfold EnumImpl.get_entries. now rewrite push_back_all. Qed.

(** C9.  [get_entries] returns the labels of the table, one per entry and
    at the entry's position, and the table is iterated by ascending code:
    the label at position [i] is the one the [i]-th smallest code maps to. *)
Theorem get_entries_in_table_order
    (p : EnumImpl.AFU420PropertyEnumImpl Id Info)
    (Hmap : is_std_map (EnumImpl.m_entries p) = true) :
  EnumImpl.get_entries p = map snd (EnumImpl.m_entries p) /\
  List.length (EnumImpl.get_entries p) = List.length (EnumImpl.m_entries p) /\
  StronglySorted Z.lt (map fst (EnumImpl.m_entries p)) /\
  (forall (i : nat) (code : Z) (label : string),
      nth_error (EnumImpl.m_entries p) i = Some (code, label) ->
      nth_error (EnumImpl.get_entries p) i = Some label /\
      find code (EnumImpl.m_entries p) = Some label) /\
  (forall label : string,
      In label (EnumImpl.get_entries p) <->
      exists code : Z, find code (EnumImpl.m_entries p) = Some label).
Proof.
  pose proof (is_std_map_sorted _ Hmap) as Hsorted.
  rewrite get_entries_labels.
  split; [reflexivity |].
  split; [apply length_map |].
  split; [exact Hsorted |].
  split.
  - intros i code label Hnth. split.
    + rewrite nth_error_map, Hnth. reflexivity.
    + apply in_find_some; [exact Hsorted |]. eapply nth_error_In, Hnth.
  - intros label. rewrite in_map_iff. split.
    + intros [[code l] [Hl Hin]]. simpl in Hl. subst l.
      exists code. now apply in_find_some.
    + intros [code Hfind]. exists (code, label). split; [reflexivity |].
      now apply find_some_in.
Qed.

(** X15.  A code that is an [int] and is not in the table is refused with
    [PropertyValueDoesNotExist] before the backend is looked at: the world is
    as it was, also when the backend is released. *)
Lemma enum_set_value_refuses_unknown_int (p : EnumImpl.AFU420PropertyEnumImpl Id Info)
    (code : Z) (w : World Id Dev) :
  is_int code = true ->
  find code (EnumImpl.m_entries p) = None ->
  EnumImpl.set_value p code w = (failure PropertyValueDoesNotExist, w).
Proof.
  intros Hint Hfind. unfold EnumImpl.set_value, EnumImpl.valid_value.
  rewrite (to_int_of_int _ Hint), Hfind. reflexivity.
Qed.

(** X16.  A label that no entry carries is refused by [set_value_str] with
    [PropertyValueDoesNotExist], and nothing has happened: no lock is taken
    and no call reaches the backend. *)
Lemma enum_set_value_str_refuses_unknown_label
    (p : EnumImpl.AFU420PropertyEnumImpl Id Info) (label : string) (w : World Id Dev) :
  ~ In label (map snd (EnumImpl.m_entries p)) ->
  EnumImpl.set_value_str p label w = (failure PropertyValueDoesNotExist, w).
Proof.
  unfold EnumImpl.set_value_str. generalize (EnumImpl.m_entries p) at 1 2.
  intros it. induction it as [| [first second] next IH]; simpl; intros Hnot.
  - reflexivity.
  - destruct (String.eqb_spec second label) as [-> | _].
    + exfalso. apply Hnot. now left.
    + apply IH. intros Hin. apply Hnot. now right.
Qed.

(** With unique labels, [set_value_str] is [set_value] on the code of the
    entry that carries the label. *)
Lemma enum_set_value_str_defers (p : EnumImpl.AFU420PropertyEnumImpl Id Info)
    (code : Z) (label : string) (w : World Id Dev) :
  NoDup (map snd (EnumImpl.m_entries p)) ->
  In (code, label) (EnumImpl.m_entries p) ->
  EnumImpl.set_value_str p label w = EnumImpl.set_value p code w.
Proof.
  unfold EnumImpl.set_value_str. generalize (EnumImpl.m_entries p) at 1 2 3.
  intros it. induction it as [| [first second] next IH]; simpl; intros Hnodup Hin.
  - contradiction.
  - inversion Hnodup as [| ? ? Hfresh Hrest]; subst.
    destruct (String.eqb_spec second label) as [-> | Hne].
    + destruct Hin as [Heq | Hin].
      * now injection Heq as ->.
      * exfalso. apply Hfresh. now apply (in_map snd) in Hin.
    + destruct Hin as [Heq | Hin].
      * injection Heq as _ Hl. contradiction.
      * now apply IH.
Qed.

(** *** Construction *)

Lemma select_static_info_null (wanted : prop_type) (static_info : prop_static_info Info) :
  info_ptr static_info = None \/ type static_info <> wanted ->
  select_static_info wanted static_info = None.
Proof.
  unfold select_static_info. intros [Hnull | Hkind].
  - rewrite Hnull. simpl. now rewrite andb_false_r.
  - destruct (prop_type_eqb (type static_info) wanted) eqn:Heq.
    + exfalso. apply Hkind.
      destruct (type static_info), wanted; simpl in Heq; congruence.
    + simpl. now destruct (negb (non_null (info_ptr static_info))).
Qed.

(** C10.  Each of the four constructors builds its object for every name
    and sets [m_flags] to [Available | Implemented], whatever the registry
    answers; a lookup without a descriptor, or one of another kind, only
    leaves [p_static_info] null. *)
Theorem constructors_set_available_implemented
    (name : string) (i : tcam_value_int) (d : tcam_value_double) (b : bool)
    (entries : std_map) (id : Id) (cam : shared_ptr) :
  (IntegerImpl.get_flags (IntegerImpl.construct name i id cam)
     = flags_or Available Implemented /\
   DoubleImpl.get_flags (DoubleImpl.construct name d id cam)
     = flags_or Available Implemented /\
   BoolImpl.get_flags (BoolImpl.construct name b id cam)
     = flags_or Available Implemented /\
   EnumImpl.get_flags (EnumImpl.construct name id entries cam)
     = flags_or Available Implemented) /\
  (info_ptr (find_prop_static_info name) = None \/
   type (find_prop_static_info name) <> Integer ->
   IntegerImpl.p_static_info (IntegerImpl.construct name i id cam) = None) /\
  (info_ptr (find_prop_static_info name) = None \/
   type (find_prop_static_info name) <> Float ->
   DoubleImpl.p_static_info (DoubleImpl.construct name d id cam) = None) /\
  (info_ptr (find_prop_static_info name) = None \/
   type (find_prop_static_info name) <> Boolean ->
   BoolImpl.p_static_info (BoolImpl.construct name b id cam) = None) /\
  (info_ptr (find_prop_static_info name) = None \/
   type (find_prop_static_info name) <> Enumeration ->
   EnumImpl.p_static_info (EnumImpl.construct name id entries cam) = None).
Proof.
  split; [repeat split |].
  repeat split; intros Hlookup; simpl; now apply select_static_info_null.
Qed.
(** *** A released backend *)

(** C4, as the code has it.  Once the backend is released, [get_value],
    [get_value_int] and [set_value] of every class return a failure and
    leave the camera and the list of backend calls as they were.  The
    failure is [ResourceNotLockable], except for [set_value] of the
    Enumeration variant, whose membership check comes before the lock: a
    code that fails the check is answered [PropertyValueDoesNotExist]. *)
Theorem released_backend_is_not_contacted
    (w : World Id Dev)
    (pi : IntegerImpl.AFU420PropertyIntegerImpl Id Info) (vi : Z)
    (pd : DoubleImpl.AFU420PropertyDoubleImpl Id Info) (vd : double)
    (pb : BoolImpl.AFU420PropertyBoolImpl Id Info) (vb : bool)
    (pe : EnumImpl.AFU420PropertyEnumImpl Id Info) (code : Z)
    (Hreleased : owned w = false) :
  IntegerImpl.get_value pi w = (failure ResourceNotLockable, w) /\
  IntegerImpl.set_value pi vi w = (failure ResourceNotLockable, w) /\
  DoubleImpl.get_value pd w = (failure ResourceNotLockable, w) /\
  DoubleImpl.set_value pd vd w = (returns (failure ResourceNotLockable), w) /\
  BoolImpl.get_value pb w = (failure ResourceNotLockable, w) /\
  BoolImpl.set_value pb vb w = ((failure ResourceNotLockable, pb), w) /\
  EnumImpl.get_value_int pe w = (failure ResourceNotLockable, w) /\
  EnumImpl.get_value pe w = (returns (failure ResourceNotLockable), w) /\
  EnumImpl.set_value pe code w =
    (failure (if EnumImpl.valid_value pe (to_int code)
              then ResourceNotLockable
              else PropertyValueDoesNotExist), w).
Proof.
  unfold IntegerImpl.get_value, IntegerImpl.set_value, DoubleImpl.get_value,
    DoubleImpl.set_value, BoolImpl.get_value, BoolImpl.set_value,
    EnumImpl.get_value, EnumImpl.get_value_int, EnumImpl.set_value, bind.
  rewrite !(lock_released _ w Hreleased).
  repeat split.
  destruct (EnumImpl.valid_value pe (to_int code)); cbn [negb].
  - now rewrite (lock_released _ w Hreleased).
  - reflexivity.
Qed.

(** *** What a failing backend call becomes *)

(** X17.  Every member that forwards to the backend with [return ptr->...]
    or [OUTCOME_TRY] hands the backend's failure on as it is: the getters of
    the four classes and the setters of the Integer, Float and Enumeration
    variants. *)
Lemma backend_failure_passed_on (w : World Id Dev) (e : status)
    (pi : IntegerImpl.AFU420PropertyIntegerImpl Id Info) (vi : Z)
    (pd : DoubleImpl.AFU420PropertyDoubleImpl Id Info) (vd : double) (zd : Z)
    (pb : BoolImpl.AFU420PropertyBoolImpl Id Info)
    (pe : EnumImpl.AFU420PropertyEnumImpl Id Info) (code : Z) :
  (fst (lock (IntegerImpl.m_cam pi) w) = backend ->
   fst (get_int (IntegerImpl.m_id pi) (device w)) = failure e ->
   fst (IntegerImpl.get_value pi w) = failure e) /\
  (fst (lock (IntegerImpl.m_cam pi) w) = backend ->
   fst (set_int (IntegerImpl.m_id pi) vi (device w)) = failure e ->
   fst (IntegerImpl.set_value pi vi w) = failure e) /\
  (fst (lock (DoubleImpl.m_cam pd) w) = backend ->
   fst (get_int (DoubleImpl.m_id pd) (device w)) = failure e ->
   fst (DoubleImpl.get_value pd w) = failure e) /\
  (fst (lock (DoubleImpl.m_cam pd) w) = backend ->
   double_to_int64 vd = Some zd ->
   fst (set_int (DoubleImpl.m_id pd) zd (device w)) = failure e ->
   fst (DoubleImpl.set_value pd vd w) = returns (failure e)) /\
  (fst (lock (BoolImpl.m_cam pb) w) = backend ->
   fst (get_bool (BoolImpl.m_id pb) (device w)) = failure e ->
   fst (BoolImpl.get_value pb w) = failure e) /\
  (fst (lock (EnumImpl.m_cam pe) w) = backend ->
   fst (get_int (EnumImpl.m_id pe) (device w)) = failure e ->
   fst (EnumImpl.get_value_int pe w) = failure e /\
   fst (EnumImpl.get_value pe w) = returns (failure e)) /\
  (fst (lock (EnumImpl.m_cam pe) w) = backend ->
   EnumImpl.valid_value pe (to_int code) = true ->
   fst (set_int (EnumImpl.m_id pe) code (device w)) = failure e ->
   fst (EnumImpl.set_value pe code w) = failure e).
Proof.
  unfold IntegerImpl.get_value, IntegerImpl.set_value, DoubleImpl.get_value,
    DoubleImpl.set_value, BoolImpl.get_value, EnumImpl.get_value,
    EnumImpl.get_value_int, EnumImpl.set_value. run.
  repeat split; intros.
  all: repeat match goal with
       | H : fst (lock ?m ?w1) = backend |- _ =>
           let Hl := fresh "Hl" in
           let Hw := fresh "Hw" in
           destruct (lock m w1) as [ptr w0] eqn:Hl;
           pose proof (lock_keeps_world m w1) as Hw;
           rewrite Hl in Hw; simpl in Hw, H; subst w0 ptr
       end.
  all: repeat match goal with
       | H : double_to_int64 _ = Some _ |- _ => rewrite H; clear H
       | H : EnumImpl.valid_value _ _ = true |- _ => rewrite H; cbn [negb]; clear H
       | H : lock _ _ = _ |- _ => rewrite H; clear H
       | H : fst ?x = failure _ |- _ => destruct x; simpl in H; subst
       end.
  all: reflexivity.
Qed.

(** X18.  With a lockable backend, [set_value] of the Boolean variant answers
    a failing [set_bool] with [UndefinedError], whatever the backend
    reported, and leaves the property object as it was. *)
Lemma bool_set_value_failure_is_undefined_error
    (p : BoolImpl.AFU420PropertyBoolImpl Id Info) (v : bool) (w : World Id Dev)
    (e : status) :
  fst (lock (BoolImpl.m_cam p) w) = backend ->
  fst (set_bool (BoolImpl.m_id p) v (device w)) = failure e ->
  fst (BoolImpl.set_value p v w) = (failure UndefinedError, p).
Proof.
  unfold BoolImpl.set_value. run.
  destruct (lock (BoolImpl.m_cam p) w) as [ptr w0] eqn:Hl.
  pose proof (lock_keeps_world (BoolImpl.m_cam p) w) as Hw.
  rewrite Hl in Hw. simpl in Hw. subst w0. simpl. intros -> Hr.
  destruct (set_bool _ v (device w)). simpl in *. now subst.
Qed.
(** *** Float over an integer channel *)

(** C5, as the code has it.  With a lockable backend, [get_value] returns
    the backend's integer converted to the nearest double, which is that
    integer exactly as long as its magnitude is at most [2^53]; and
    [set_value] forwards to [set_int] the requested double with its
    fractional part discarded (truncation toward zero, not rounding),
    whenever that integer is an [int64_t]. *)
Theorem double_over_integer_conversions
    (p : DoubleImpl.AFU420PropertyDoubleImpl Id Info) (w : World Id Dev)
    (v : double) (z : Z)
    (Hlock : fst (lock (DoubleImpl.m_cam p) w) = backend)
    (Hconv : double_to_int64 v = Some z) :
  DoubleImpl.get_value p w =
    (match fst (get_int (DoubleImpl.m_id p) (device w)) with
     | success x => success (int64_to_double x)
     | failure e => failure e
     end,
     mkWorld (owned w) (snd (get_int (DoubleImpl.m_id p) (device w)))
             (calls w ++ [GetInt (DoubleImpl.m_id p)])) /\
  (forall x : Z, Z.abs x <= 2 ^ 53 -> represents (int64_to_double x) x) /\
  DoubleImpl.set_value p v w =
    (returns (fst (set_int (DoubleImpl.m_id p) z (device w))),
     mkWorld (owned w) (snd (set_int (DoubleImpl.m_id p) z (device w)))
             (calls w ++ [SetInt (DoubleImpl.m_id p) z])) /\
  truncate v = Some z /\
  (forall (s : bool) (m : positive) (e : Z),
      v = S754_finite s m e ->
      z = (if s then - Z.abs z else Z.abs z) /\
      Z.abs z * 2 ^ Z.max 0 (- e) <= Zpos m * 2 ^ Z.max 0 e
        < (Z.abs z + 1) * 2 ^ Z.max 0 (- e)).
Proof.
  assert (Htrunc : truncate v = Some z).
  { unfold double_to_int64 in Hconv. destruct (truncate v) as [t |]; [| discriminate].
    destruct (is_int64 t); [exact Hconv | discriminate]. }
  unfold DoubleImpl.get_value, DoubleImpl.set_value. run.
  destruct (lock (DoubleImpl.m_cam p) w) as [ptr w0] eqn:Hl.
  pose proof (lock_keeps_world (DoubleImpl.m_cam p) w) as Hw.
  rewrite Hl in Hw. simpl in Hw, Hlock. subst w0 ptr.
  rewrite Hconv.
  split; [| split; [| split; [| split]]].
  - destruct (get_int (DoubleImpl.m_id p) (device w)) as [[x | e] d]; reflexivity.
  - exact int64_to_double_exact.
  - destruct (set_int (DoubleImpl.m_id p) z (device w)) as [[[] | e] d]; reflexivity.
  - exact Htrunc.
  - intros s m e ->. now apply truncate_toward_zero.
Qed.
End Properties.

(** ** Runs on the concrete properties *)

Import Examples.

(** C1.  The Integer property with range [0, 100] is asked to write 150:
    [valid_value] would refuse it, but [set_value] does not call it, so the
    backend's [set_int] receives 150, the call succeeds and 150 is read back.
    The Float property with range [0.0, 1000.0] forwards 1500.0 the same
    way. *)
Theorem set_value_forwards_out_of_range :
  IntegerImpl.valid_value exposure 150 = failure PropertyOutOfBounds /\
  IntegerImpl.set_value (Cam := faithful_store) exposure 150 live =
    (success tt, mkWorld true [(0%nat, 150)] [SetInt 0%nat 150]) /\
  fst (IntegerImpl.get_value (Cam := faithful_store) exposure
         (snd (IntegerImpl.set_value (Cam := faithful_store) exposure 150 live)))
    = success 150 /\
  DoubleImpl.valid_value gain (int64_to_double 1500) = failure PropertyOutOfBounds /\
  DoubleImpl.set_value (Cam := faithful_store) gain (int64_to_double 1500) live =
    (returns (success tt), mkWorld true [(2%nat, 1500)] [SetInt 2%nat 1500]).
Proof. repeat (split; [reflexivity |]). reflexivity. Qed.

(** Both ends of the two ranges are accepted. *)
Lemma valid_value_inclusive_at_bounds :
  (IntegerImpl.valid_value exposure 0 = success tt /\
   IntegerImpl.valid_value exposure 100 = success tt) /\
  (DoubleImpl.valid_value gain (int64_to_double 0) = success tt /\
   DoubleImpl.valid_value gain (int64_to_double 1000) = success tt).
Proof.
  pose proof (valid_value_inclusive exposure 0 gain (int64_to_double 0)
                eq_refl eq_refl eq_refl) as (Hi0 & _ & Hd0 & _).
  pose proof (valid_value_inclusive exposure 100 gain (int64_to_double 1000)
                eq_refl eq_refl eq_refl) as (Hi1 & _ & Hd1 & _).
  split; split.
  - apply Hi0. simpl. lia.
  - apply Hi1. simpl. lia.
  - apply Hd0. split; reflexivity.
  - apply Hd1. split; reflexivity.
Defined.

(** C2 fails at NaN: the Float variant accepts it although it does not lie
    between the bounds. *)
Lemma double_valid_value_accepts_nan :
  ~ (DoubleImpl.valid_value gain S754_nan = success tt <->
     double_le (DoubleImpl.get_min gain) S754_nan = true /\
     double_le S754_nan (DoubleImpl.get_max gain) = true).
Proof.
  intros [Hto _]. destruct (Hto eq_refl) as [Hle _]. discriminate Hle.
Qed.

(** C3.  The table has the codes 0, 1 and 2.  The code [2^32 + 1] is not in
    it, yet it is converted to the [int] 1 for the membership check, passes,
    and is written to the backend as it was given. *)
Theorem enum_set_value_forwards_code_outside_table :
  find wide_code (EnumImpl.m_entries trigger_mode) = None /\
  to_int wide_code = 1 /\
  EnumImpl.valid_value trigger_mode (to_int wide_code) = true /\
  EnumImpl.set_value (Cam := faithful_store) trigger_mode wide_code live =
    (success tt, mkWorld true [(1%nat, wide_code)] [SetInt 1%nat wide_code]).
Proof. repeat (split; [reflexivity |]). reflexivity. Qed.

(** After the release every member of every class fails without a call. *)
Lemma released_backend_is_not_contacted_run :
  IntegerImpl.get_value (Cam := faithful_store) exposure released
    = (failure ResourceNotLockable, released) /\
  BoolImpl.set_value (Cam := faithful_store) strobe true released
    = ((failure ResourceNotLockable, strobe), released) /\
  EnumImpl.set_value (Cam := faithful_store) trigger_mode 1 released
    = (failure ResourceNotLockable, released).
Proof.
  pose proof (released_backend_is_not_contacted (Cam := faithful_store) released
                exposure 53 gain d250_7 strobe true trigger_mode 1 eq_refl)
    as (Hget & _ & _ & _ & _ & Hbool & _ & _ & Henum).
  split; [exact Hget |]. split; [exact Hbool |]. exact Henum.
Defined.

(** C4 fails for the Enumeration variant: after the release, [set_value]
    with a code that is not in the table is answered
    [PropertyValueDoesNotExist], not [ResourceNotLockable]. *)
Lemma enum_set_value_released_unknown_code :
  owned released = false /\
  fst (EnumImpl.set_value (Cam := faithful_store) trigger_mode 7 released)
    = failure PropertyValueDoesNotExist /\
  fst (EnumImpl.set_value (Cam := faithful_store) trigger_mode 7 released)
    <> failure ResourceNotLockable.
Proof.
  split; [reflexivity |]. split; [reflexivity |].
  simpl. discriminate.
Qed.

(** [d250_7] is the double nearest to 250.7: ten times its mantissa is within
    5 of [2507 * 2^45]. *)
Lemma d250_7_nearest :
  d250_7 = S754_finite false 8820722082670182 (-45) /\
  Z.abs (10 * 8820722082670182 - 2507 * 2 ^ 45) <= 5.
Proof. split; [reflexivity | vm_compute; discriminate]. Qed.

(** C5 fails on both conversions: [set_value(250.7)] forwards 250, not 251,
    and an integer above [2^53] is not read back exactly, [2^53 + 1] and
    [2^53] giving the same double. *)
Lemma double_set_value_truncates :
  (calls (snd (DoubleImpl.set_value (Cam := faithful_store) gain d250_7 live))
     = [SetInt 2%nat 250] /\
   calls (snd (DoubleImpl.set_value (Cam := faithful_store) gain d250_7 live))
     <> [SetInt 2%nat 251]) /\
  (fst (DoubleImpl.get_value (Cam := faithful_store) gain
          (mkWorld true [(2%nat, 2 ^ 53 + 1)] []))
     = fst (DoubleImpl.get_value (Cam := faithful_store) gain
              (mkWorld true [(2%nat, 2 ^ 53)] [])) /\
   ~ represents (int64_to_double (2 ^ 53 + 1)) (2 ^ 53 + 1)).
Proof.
  split; split.
  - reflexivity.
  - discriminate.
  - reflexivity.
  - vm_compute. discriminate.
Qed.

(** The conversions on the Float property: 250 is read as 250.0 and 250.7 is
    written as 250. *)
Lemma double_over_integer_conversions_run :
  DoubleImpl.get_value (Cam := faithful_store) gain (mkWorld true [(2%nat, 250)] [])
    = (success (int64_to_double 250),
       mkWorld true [(2%nat, 250)] [GetInt 2%nat]) /\
  DoubleImpl.set_value (Cam := faithful_store) gain d250_7 live
    = (returns (success tt), mkWorld true [(2%nat, 250)] [SetInt 2%nat 250]).
Proof.
  split.
  - apply (double_over_integer_conversions (Cam := faithful_store) gain
             (mkWorld true [(2%nat, 250)] []) d250_7 250 eq_refl eq_refl).
  - apply (double_over_integer_conversions (Cam := faithful_store) gain
             live d250_7 250 eq_refl eq_refl).
Defined.

(** C6.  The backend refuses [set_bool] with a failure of its own; the
    caller of [set_value] is told [UndefinedError] instead. *)
Theorem bool_set_value_replaces_backend_failure :
  fst (set_bool (AFU420DeviceBackend := failing (OtherStatus 5)) 3%nat true []) = failure (OtherStatus 5) /\
  BoolImpl.set_value (Cam := failing (OtherStatus 5)) strobe true live =
    ((failure UndefinedError, strobe), mkWorld true [] [SetBool 3%nat true]).
Proof. repeat (split; [reflexivity |]). reflexivity. Qed.

(** C8.  The backend reports the code 7, which the table does not have:
    [m_entries.at] throws and [get_value] returns no result. *)
Theorem enum_get_value_throws_on_unknown_code :
  fst (EnumImpl.get_value_int (Cam := faithful_store) trigger_mode
         (mkWorld true [(1%nat, 7)] [])) = success 7 /\
  find 7 (EnumImpl.m_entries trigger_mode) = None /\
  fst (EnumImpl.get_value (Cam := faithful_store) trigger_mode
         (mkWorld true [(1%nat, 7)] [])) = aborts std_out_of_range.
Proof. repeat (split; [reflexivity |]). reflexivity. Qed.

(** The three labels, by ascending code. *)
Lemma get_entries_in_table_order_run :
  EnumImpl.get_entries trigger_mode = ["Off"; "Auto"; "Manual"]%string /\
  (forall label : string,
      In label (EnumImpl.get_entries trigger_mode) <->
      exists code : Z, find code (EnumImpl.m_entries trigger_mode) = Some label).
Proof.
  pose proof (get_entries_in_table_order trigger_mode eq_refl)
    as (Hlabels & _ & _ & _ & Hin).
  split; [exact Hlabels | exact Hin].
Defined.

(** ** The scenarios of the specification that the code follows *)

(** Scenario A, the part in range: 53 is written and read back. *)
Example scenario_A_in_range :
  IntegerImpl.set_value (Cam := faithful_store) exposure 53 live =
    (success tt, mkWorld true [(0%nat, 53)] [SetInt 0%nat 53]) /\
  fst (IntegerImpl.get_value (Cam := faithful_store) exposure
         (mkWorld true [(0%nat, 53)] [SetInt 0%nat 53])) = success 53.
Proof. split; reflexivity. Qed.

(** Scenario B: "Auto" is written as the code 1 and read back in both forms;
    "Bogus" is refused and nothing reaches the backend. *)
Example scenario_B :
  EnumImpl.set_value_str (Cam := faithful_store) trigger_mode "Auto" live =
    (success tt, mkWorld true [(1%nat, 1)] [SetInt 1%nat 1]) /\
  fst (EnumImpl.get_value (Cam := faithful_store) trigger_mode
         (mkWorld true [(1%nat, 1)] [])) = returns (success "Auto"%string) /\
  fst (EnumImpl.get_value_int (Cam := faithful_store) trigger_mode
         (mkWorld true [(1%nat, 1)] [])) = success 1 /\
  EnumImpl.set_value_str (Cam := faithful_store) trigger_mode "Bogus" live =
    (failure PropertyValueDoesNotExist, live).
Proof. repeat (split; [reflexivity |]). reflexivity. Qed.

(** The Boolean property on the storing backend: the mirror follows the
    write; on the failing backend it keeps its value. *)
Example bool_mirror_runs :
  BoolImpl.m_value
    (snd (fst (BoolImpl.set_value (Cam := faithful_store) strobe true live))) = true /\
  BoolImpl.m_value
    (snd (fst (BoolImpl.set_value (Cam := failing (OtherStatus 5)) strobe true live)))
    = false.
Proof. split; reflexivity. Qed.

(** The registry does not know "StrobeEnable": the property is built, has
    both flags and no descriptor. *)
Example strobe_constructed :
  BoolImpl.get_flags strobe = flags_or (Available (Declarations := registry))
                                       (Implemented (Declarations := registry)) /\
  BoolImpl.p_static_info strobe = None.
Proof. split; reflexivity. Qed.

(** * Further properties of the property classes *)

Section Composition.
Context {Id Dev Info : Type} `{Cam : AFU420DeviceBackend Id Dev} `{Decl : Declarations Info}.

Lemma lock_cases (m : weak_ptr) (w : World Id Dev) :
  (lock m w = (backend, w) /\ owned w = true) \/ lock m w = (nullptr, w).
Proof.
  unfold lock. destruct (observed m); [now right |].
  destruct (owned w); [now left | now right].
Qed.

Lemma through_owned {A : Type} (c : BackendCall Id) (op : Dev -> result A * Dev)
    (w : World Id Dev) :
  owned (snd (through c op w)) = owned w.
Proof. unfold through. now destruct (op (device w)). Qed.

Lemma lock_same_owner (m : weak_ptr) (w w' : World Id Dev) :
  owned w' = owned w -> fst (lock m w') = fst (lock m w).
Proof. unfold lock. simpl. now intros ->. Qed.

Lemma through_eq {A : Type} (c : BackendCall Id) (op : Dev -> result A * Dev)
    (w : World Id Dev) :
  through c op w =
    (fst (op (device w)), mkWorld (owned w) (snd (op (device w))) (calls w ++ [c])).
Proof. unfold through. now destruct (op (device w)). Qed.

(** A member that starts with [m_cam.lock()] continues with the pointer the
    lock gives, in the same world. *)
Lemma bind_lock {A : Type} (m : weak_ptr) (k : shared_ptr -> M Id Dev A)
    (w : World Id Dev) :
  (ptr <- lock m ;; k ptr) w = k (fst (lock m w)) w.
Proof. reflexivity. Qed.

Lemma lock_fails_or_owned (m : weak_ptr) (w : World Id Dev) :
  fst (lock m w) = nullptr \/ (fst (lock m w) = backend /\ owned w = true).
Proof.
  destruct (lock_cases m w) as [[Hl Hown] | Hl]; rewrite Hl; auto.
Qed.

Lemma through_owner {A : Type} (c : BackendCall Id) (op : Dev -> result A * Dev)
    (m : weak_ptr) (w : World Id Dev) :
  fst (lock m (snd (through c op w))) = fst (lock m w).
Proof. apply lock_same_owner. rewrite through_eq. reflexivity. Qed.

Ltac locked H := rewrite bind_lock, H; reflexivity.

Lemma integer_get_value_locked (p : IntegerImpl.AFU420PropertyIntegerImpl Id Info)
    (w : World Id Dev) :
  fst (lock (IntegerImpl.m_cam p) w) = backend ->
  IntegerImpl.get_value p w = ptr_get_int (IntegerImpl.m_id p) w.
Proof. intros H. unfold IntegerImpl.get_value. locked H. Qed.

Lemma integer_set_value_locked (p : IntegerImpl.AFU420PropertyIntegerImpl Id Info)
    (v : Z) (w : World Id Dev) :
  fst (lock (IntegerImpl.m_cam p) w) = backend ->
  IntegerImpl.set_value p v w = ptr_set_int (IntegerImpl.m_id p) v w.
Proof. intros H. unfold IntegerImpl.set_value. locked H. Qed.

Lemma integer_set_value_unlocked (p : IntegerImpl.AFU420PropertyIntegerImpl Id Info)
    (v : Z) (w : World Id Dev) :
  fst (lock (IntegerImpl.m_cam p) w) = nullptr ->
  IntegerImpl.set_value p v w = (failure ResourceNotLockable, w).
Proof. intros H. unfold IntegerImpl.set_value. locked H. Qed.

(** X1.  A value that [set_value] of the Integer variant has written
    successfully is the value [get_value] returns next, on every backend that
    keeps what it is given; the range of the property plays no part. *)
Theorem integer_set_then_get
    (p : IntegerImpl.AFU420PropertyIntegerImpl Id Info) (v : Z) (w : World Id Dev)
    (Hkeeps : remembers_int (IntegerImpl.m_id p))
    (Hset : fst (IntegerImpl.set_value p v w) = success tt) :
  fst (IntegerImpl.get_value p (snd (IntegerImpl.set_value p v w))) = success v.
Proof.
  destruct (lock_fails_or_owned (IntegerImpl.m_cam p) w) as [Hl | [Hl _]].
  - rewrite (integer_set_value_unlocked p v w Hl) in Hset. discriminate.
  - rewrite (integer_set_value_locked p v w Hl) in *. unfold ptr_set_int in *.
    rewrite integer_get_value_locked by (now rewrite through_owner).
    unfold ptr_get_int. rewrite !through_eq in *. simpl in *.
    now apply Hkeeps.
Qed.
(** *** Boolean *)

Lemma bool_get_value_locked (p : BoolImpl.AFU420PropertyBoolImpl Id Info)
    (w : World Id Dev) :
  fst (lock (BoolImpl.m_cam p) w) = backend ->
  BoolImpl.get_value p w = ptr_get_bool (BoolImpl.m_id p) w.
Proof. intros H. unfold BoolImpl.get_value. locked H. Qed.

Lemma bool_set_value_locked (p : BoolImpl.AFU420PropertyBoolImpl Id Info)
    (v : bool) (w : World Id Dev) :
  fst (lock (BoolImpl.m_cam p) w) = backend ->
  BoolImpl.set_value p v w =
    ((if has_value (fst (set_bool (BoolImpl.m_id p) v (device w)))
      then (success tt, BoolImpl.assign_m_value p v)
      else (failure UndefinedError, p)),
     mkWorld (owned w) (snd (set_bool (BoolImpl.m_id p) v (device w)))
             (calls w ++ [SetBool (BoolImpl.m_id p) v])).
Proof.
  intros H. unfold BoolImpl.set_value. rewrite bind_lock, H.
  unfold bind, ptr_set_bool. rewrite through_eq.
  now destruct (has_value (fst (set_bool (BoolImpl.m_id p) v (device w)))).
Qed.

Lemma bool_set_value_unlocked (p : BoolImpl.AFU420PropertyBoolImpl Id Info)
    (v : bool) (w : World Id Dev) :
  fst (lock (BoolImpl.m_cam p) w) = nullptr ->
  BoolImpl.set_value p v w = ((failure ResourceNotLockable, p), w).
Proof. intros H. unfold BoolImpl.set_value. locked H. Qed.

(** X2.  After a successful [set_value] of the Boolean variant, on a backend
    that keeps what it is given, [get_value] returns the written value and the
    cached [m_value] agrees with it. *)
Theorem bool_set_then_get
    (p : BoolImpl.AFU420PropertyBoolImpl Id Info) (v : bool) (w : World Id Dev)
    (Hkeeps : remembers_bool (BoolImpl.m_id p))
    (Hset : fst (fst (BoolImpl.set_value p v w)) = success tt) :
  fst (BoolImpl.get_value (snd (fst (BoolImpl.set_value p v w)))
                          (snd (BoolImpl.set_value p v w))) = success v /\
  BoolImpl.m_value (snd (fst (BoolImpl.set_value p v w))) = v.
Proof.
  destruct (lock_fails_or_owned (BoolImpl.m_cam p) w) as [Hl | [Hl _]].
  - rewrite (bool_set_value_unlocked p v w Hl) in Hset. discriminate.
  - rewrite (bool_set_value_locked p v w Hl) in *.
    specialize (Hkeeps v (device w)).
    destruct (set_bool (BoolImpl.m_id p) v (device w)) as [[[] | e] d];
      simpl in *; [| discriminate].
    split; [| reflexivity].
    rewrite bool_get_value_locked.
    + unfold ptr_get_bool. rewrite through_eq. simpl. now apply Hkeeps.
    + rewrite <- Hl. now apply lock_same_owner.
Qed.

(** *** Float *)





(** *** Enumeration *)

Lemma first_code_in (label : string) (it : std_map) (code : Z) :
  first_code label it = Some code -> In (code, label) it.
Proof.
  induction it as [| [first second] next IH]; simpl; [discriminate |].
  destruct (String.eqb_spec second label) as [-> | _].
  - intros [= ->]. now left.
  - intros H. right. now apply IH.
Qed.

Lemma first_code_none (label : string) (it : std_map) :
  first_code label it = None -> ~ In label (map snd it).
Proof.
  induction it as [| [first second] next IH]; simpl; [tauto |].
  destruct (String.eqb_spec second label) as [-> | Hne]; [discriminate |].
  intros H [Heq | Hin]; [contradiction | now apply IH].
Qed.

Lemma first_code_least (label : string) (it : std_map) (code : Z) :
  StronglySorted Z.lt (map fst it) ->
  first_code label it = Some code ->
  forall code' : Z, In (code', label) it -> code <= code'.
Proof.
  induction it as [| [first second] next IH]; simpl; [discriminate |].
  intros Hsorted Hfirst code' Hin.
  inversion Hsorted as [| ? ? Hrest Hall]; subst.
  destruct (String.eqb_spec second label) as [-> | Hne].
  - injection Hfirst as ->. destruct Hin as [Heq | Hin].
    + injection Heq as ->. lia.
    + rewrite Forall_forall in Hall.
      specialize (Hall code' (in_map fst _ _ Hin)). simpl in Hall. lia.
  - destruct Hin as [Heq | Hin].
    + injection Heq as _ Hl. contradiction.
    + now apply IH.
Qed.

Lemma set_value_str_first_code (p : EnumImpl.AFU420PropertyEnumImpl Id Info)
    (label : string) (w : World Id Dev) :
  EnumImpl.set_value_str p label w =
    match first_code label (EnumImpl.m_entries p) with
    | Some code => EnumImpl.set_value p code w
    | None => (failure PropertyValueDoesNotExist, w)
    end.
Proof.
  unfold EnumImpl.set_value_str. generalize (EnumImpl.m_entries p) at 1 2.
  intros it. induction it as [| [first second] next IH]; simpl; [reflexivity |].
  now destruct (String.eqb second label).
Qed.

Lemma enum_get_value_int_locked (p : EnumImpl.AFU420PropertyEnumImpl Id Info)
    (w : World Id Dev) :
  fst (lock (EnumImpl.m_cam p) w) = backend ->
  EnumImpl.get_value_int p w = ptr_get_int (EnumImpl.m_id p) w.
Proof. intros H. unfold EnumImpl.get_value_int. locked H. Qed.


(** [get_value] in terms of [get_value_int]. *)
Lemma enum_get_value_eq (p : EnumImpl.AFU420PropertyEnumImpl Id Info) (w : World Id Dev) :
  EnumImpl.get_value p w =
    (match fst (EnumImpl.get_value_int p w) with
     | failure e => returns (failure e)
     | success value =>
         match find (to_int value) (EnumImpl.m_entries p) with
         | Some label => returns (success label)
         | None => aborts std_out_of_range
         end
     end, snd (EnumImpl.get_value_int p w)).
Proof.
  unfold EnumImpl.get_value, bind, at_key.
  destruct (EnumImpl.get_value_int p w) as [[value | e] w']; simpl; [| reflexivity].
  now destruct (find (to_int value) (EnumImpl.m_entries p)).
Qed.

(** [set_value] case by case. *)
Lemma enum_set_value_eq (p : EnumImpl.AFU420PropertyEnumImpl Id Info) (code : Z)
    (w : World Id Dev) :
  EnumImpl.set_value p code w =
    if EnumImpl.valid_value p (to_int code)
    then match fst (lock (EnumImpl.m_cam p) w) with
         | backend => ptr_set_int (EnumImpl.m_id p) code w
         | nullptr => (failure ResourceNotLockable, w)
         end
    else (failure PropertyValueDoesNotExist, w).
Proof.
  unfold EnumImpl.set_value.
  destruct (EnumImpl.valid_value p (to_int code)); cbn [negb]; [| reflexivity].
  rewrite bind_lock. now destruct (fst (lock (EnumImpl.m_cam p) w)).
Qed.

(** X4.  After a successful [set_value_str(label)], on a backend that keeps
    what it is given, [get_value] returns that label and [get_value_int] a
    code of the table that carries it. *)
Theorem enum_set_value_str_then_get_value
    (p : EnumImpl.AFU420PropertyEnumImpl Id Info) (label : string) (w : World Id Dev)
    (Hmap : is_std_map (EnumImpl.m_entries p) = true)
    (Hkeeps : remembers_int (EnumImpl.m_id p))
    (Hset : fst (EnumImpl.set_value_str p label w) = success tt) :
  fst (EnumImpl.get_value p (snd (EnumImpl.set_value_str p label w)))
    = returns (success label) /\
  exists code : Z,
    In (code, label) (EnumImpl.m_entries p) /\
    fst (EnumImpl.get_value_int p (snd (EnumImpl.set_value_str p label w)))
      = success code.
Proof.
  rewrite set_value_str_first_code in *.
  destruct (first_code label (EnumImpl.m_entries p)) as [code |] eqn:Hfirst;
    [| discriminate].
  apply first_code_in in Hfirst.
  rewrite enum_set_value_eq in *.
  destruct (EnumImpl.valid_value p (to_int code)); [| discriminate].
  destruct (lock_fails_or_owned (EnumImpl.m_cam p) w) as [Hl | [Hl _]];
    rewrite Hl in *; [discriminate |].
  unfold ptr_set_int in *. rewrite through_eq in *. simpl in Hset.
  assert (Hint : fst (EnumImpl.get_value_int p
                        (snd (fst (set_int (EnumImpl.m_id p) code (device w)),
                              mkWorld (owned w)
                                (snd (set_int (EnumImpl.m_id p) code (device w)))
                                (calls w ++ [SetInt (EnumImpl.m_id p) code]))))
                 = success code).
  { rewrite enum_get_value_int_locked by (rewrite <- Hl; now apply lock_same_owner).
    unfold ptr_get_int. rewrite through_eq. simpl. now apply Hkeeps. }
  split.
  - rewrite enum_get_value_eq, Hint. simpl.
    rewrite (to_int_of_int code) by (eapply is_std_map_keys; eauto).
    rewrite (in_find_some code label) by (auto using is_std_map_sorted).
    reflexivity.
  - exists code. split; [exact Hfirst | exact Hint].
Qed.

(** X5.  [set_value_str] writes the smallest code that carries the label:
    for a label of the table it is [set_value] on that code, also when several
    entries share the label. *)
Theorem enum_set_value_str_writes_lowest_code
    (p : EnumImpl.AFU420PropertyEnumImpl Id Info) (label : string) (w : World Id Dev)
    (Hmap : is_std_map (EnumImpl.m_entries p) = true)
    (Hlabel : In label (EnumImpl.get_entries p)) :
  exists code : Z,
    In (code, label) (EnumImpl.m_entries p) /\
    (forall code' : Z, In (code', label) (EnumImpl.m_entries p) -> code <= code') /\
    EnumImpl.set_value_str p label w = EnumImpl.set_value p code w.
Proof.
  rewrite get_entries_labels in Hlabel.
  rewrite set_value_str_first_code.
  destruct (first_code label (EnumImpl.m_entries p)) as [code |] eqn:Hfirst.
  - exists code. split; [now apply first_code_in |]. split; [| reflexivity].
    apply first_code_least; [now apply is_std_map_sorted | exact Hfirst].
  - exfalso. exact (first_code_none _ _ Hfirst Hlabel).
Qed.

(** X6.  A label that [get_value] returns is one of [get_entries()], whatever
    code the backend reports. *)
Theorem enum_get_value_label_is_an_entry
    (p : EnumImpl.AFU420PropertyEnumImpl Id Info) (w : World Id Dev) (label : string)
    (Hget : fst (EnumImpl.get_value p w) = returns (success label)) :
  In label (EnumImpl.get_entries p).
Proof.
  rewrite enum_get_value_eq in Hget. simpl in Hget.
  destruct (fst (EnumImpl.get_value_int p w)) as [value | e]; [| discriminate].
  destruct (find (to_int value) (EnumImpl.m_entries p)) as [l |] eqn:Hfind;
    [| discriminate].
  injection Hget as ->. rewrite get_entries_labels.
  apply find_some_in in Hfind. now apply (in_map snd) in Hfind.
Qed.
(** *** Calls that reach the backend *)




End Composition.

(** *** Unit and representation *)

Section Descriptors.
Context {Id Info IntRepresentation_t FloatRepresentation_t : Type}
        `{Decl : Declarations Info}
        `{Fields : StaticInfoFields Info IntRepresentation_t FloatRepresentation_t}.

Lemma select_static_info_match (wanted : prop_type) (info : Info) :
  select_static_info wanted (mk_static_info wanted (Some info)) = Some info.
Proof. unfold select_static_info. simpl. now destruct wanted. Qed.

(** X8.  A numeric property built under a name for which the registry has no
    descriptor, or one of another kind, reports the empty unit and the
    [Linear] representation; built under a name with a descriptor of its own
    kind, it reports that descriptor's unit and representation. *)
Theorem unit_and_representation_of_constructed
    (name : string) (i : tcam_value_int) (d : tcam_value_double) (id : Id)
    (cam : shared_ptr) :
  (info_ptr (find_prop_static_info name) = None \/
   type (find_prop_static_info name) <> Integer ->
   IntegerImpl.get_unit (IntegerImpl.construct name i id cam) = EmptyString /\
   IntegerImpl.get_representation (IntegerImpl.construct name i id cam) = IntLinear) /\
  (forall info : Info,
      find_prop_static_info name = mk_static_info Integer (Some info) ->
      IntegerImpl.get_unit (IntegerImpl.construct name i id cam) = unit_of info /\
      IntegerImpl.get_representation (IntegerImpl.construct name i id cam)
        = int_representation_of info) /\
  (info_ptr (find_prop_static_info name) = None \/
   type (find_prop_static_info name) <> Float ->
   DoubleImpl.get_unit (DoubleImpl.construct name d id cam) = EmptyString /\
   DoubleImpl.get_representation (DoubleImpl.construct name d id cam) = FloatLinear) /\
  (forall info : Info,
      find_prop_static_info name = mk_static_info Float (Some info) ->
      DoubleImpl.get_unit (DoubleImpl.construct name d id cam) = unit_of info /\
      DoubleImpl.get_representation (DoubleImpl.construct name d id cam)
        = float_representation_of info).
Proof.
  unfold IntegerImpl.get_unit, IntegerImpl.get_representation,
    DoubleImpl.get_unit, DoubleImpl.get_representation. simpl.
  repeat match goal with |- _ /\ _ => split end.
  - intros H. now rewrite (select_static_info_null _ _ H).
  - intros info ->. now rewrite select_static_info_match.
  - intros H. now rewrite (select_static_info_null _ _ H).
  - intros info ->. now rewrite select_static_info_match.
Qed.
End Descriptors.

(** * Properties of the source element *)

Section Negotiation.
Context {Caps : Type} `{Gst : MainSrc.GstCapsFunctions Caps}.

Lemma peer_loop_unfold (fuel : nat) (thiscaps peercaps : Caps) (i : Z) :
  MainSrc.peer_loop (S fuel) thiscaps peercaps i =
    if i <=? MainSrc.to_guint (MainSrc.gst_caps_get_size peercaps - 1)
    then
      let ipcaps := MainSrc.gst_caps_copy_nth peercaps i in
      let is_any_caps := MainSrc.is_any_string ipcaps in
      if MainSrc.gst_caps_is_any ipcaps || is_any_caps
      then MainSrc.peer_loop fuel thiscaps peercaps (MainSrc.to_guint (i - 1))
      else
        let icaps := MainSrc.gst_caps_intersect_first thiscaps ipcaps in
        if negb (MainSrc.gst_caps_is_empty icaps)
        then Some (Some icaps)
        else MainSrc.peer_loop fuel thiscaps peercaps (MainSrc.to_guint (i - 1))
    else Some None.
Proof. reflexivity. Qed.

(** X9.  The loop over the caps of the peer counts its [guint] index down
    from 0, so the index wraps to [2^32 - 1] after the first round and the
    loop is left: whatever the number of structures the peer proposes, only
    the first one is intersected with the caps of the source. *)
Theorem peer_loop_examines_first_structure_only
    (thiscaps peercaps : Caps) (fuel : nat)
    (Hsize : 1 <= MainSrc.gst_caps_get_size peercaps < 2 ^ 32) :
  MainSrc.peer_loop (S (S fuel)) thiscaps peercaps 0 =
    Some (let ipcaps := MainSrc.gst_caps_copy_nth peercaps 0 in
          if MainSrc.gst_caps_is_any ipcaps || MainSrc.is_any_string ipcaps
          then None
          else
            let icaps := MainSrc.gst_caps_intersect_first thiscaps ipcaps in
            if MainSrc.gst_caps_is_empty icaps then None else Some icaps).
Proof.
  assert (Hlast : MainSrc.to_guint (MainSrc.gst_caps_get_size peercaps - 1)
                  = MainSrc.gst_caps_get_size peercaps - 1).
  { unfold MainSrc.to_guint. apply Z.mod_small. lia. }
  assert (Hwrap : MainSrc.to_guint (0 - 1) = 2 ^ 32 - 1) by reflexivity.
  assert (Hleft : forall n : nat,
             MainSrc.peer_loop (S n) thiscaps peercaps (MainSrc.to_guint (0 - 1))
             = Some None).
  { intros n. rewrite peer_loop_unfold, Hlast, Hwrap.
    destruct (Z.leb_spec (2 ^ 32 - 1) (MainSrc.gst_caps_get_size peercaps - 1));
      [lia | reflexivity]. }
  rewrite (peer_loop_unfold (S fuel)).
  destruct (Z.leb_spec 0 (MainSrc.to_guint (MainSrc.gst_caps_get_size peercaps - 1)))
    as [_ | Hneg]; [| rewrite Hlast in Hneg; lia].
  cbv zeta.
  destruct (MainSrc.gst_caps_is_any (MainSrc.gst_caps_copy_nth peercaps 0)
            || MainSrc.is_any_string (MainSrc.gst_caps_copy_nth peercaps 0)).
  - apply (Hleft fuel).
  - destruct (MainSrc.gst_caps_is_empty _); cbn [negb]; [apply (Hleft fuel) | reflexivity].
Qed.
End Negotiation.

(** ** The choice among several intersections *)

Section BestResolution.
Variables twidth theight : Z.
Variable icaps : list MainSrc.Dimensions.

Hypothesis Hints :
  forall (j : nat) (w h : Z),
    nth j icaps None = Some (w, h) -> w <= MainSrc.G_MAXINT /\ h <= MainSrc.G_MAXINT.

Lemma walked_start : walked twidth theight icaps (List.length icaps) (MainSrc.G_MAXINT, MainSrc.G_MAXINT, 0).
Proof.
  unfold walked. split; [lia |]. split.
  - left. split; [reflexivity |]. intros j w h Hj Hnth.
    rewrite nth_overflow in Hnth by exact Hj. discriminate.
  - intros j w h Hj Hnth. rewrite nth_overflow in Hnth by exact Hj. discriminate.
Qed.

Lemma walked_step (i : nat) (acc : Z * Z * Z) :
  walked twidth theight icaps (S i) acc ->
  walked twidth theight icaps i (MainSrc.consider twidth theight acc (Z.of_nat i) (nth i icaps None)).
Proof.
  destruct acc as [[width height] best]. unfold walked, MainSrc.consider.
  intros (Hbest & Hfound & Hmin).
  destruct (nth i icaps None) as [[w h] |] eqn:Hi.
  - destruct ((w >=? twidth) && (w <=? width) && (h >=? theight) && (h <=? height))
      eqn:Htest.
    + apply andb_prop in Htest. destruct Htest as [Htest Hh'].
      apply andb_prop in Htest. destruct Htest as [Htest Hh].
      apply andb_prop in Htest. destruct Htest as [Hw Hw'].
      apply Z.geb_le in Hw. apply Z.leb_le in Hw'.
      apply Z.geb_le in Hh. apply Z.leb_le in Hh'.
      split; [lia |]. split.
      * right. rewrite Nat2Z.id. repeat split; try lia. exact Hi.
      * intros j w0 h0 Hj Hnth Htw Hth Hle_w Hle_h.
        destruct (Nat.eq_dec j i) as [-> | Hne].
        -- rewrite Hi in Hnth. injection Hnth as <- <-. repeat split; lia.
        -- assert (Hj' : (S i <= j)%nat) by lia.
           destruct (Hmin j w0 h0 Hj' Hnth Htw Hth) as (Hw0 & Hh0 & Hb); lia.
    + split; [exact Hbest |]. split.
      * destruct Hfound as [[Hacc Hnone] | (Hk & Hnth & Hq)].
        -- left. split; [exact Hacc |].
           intros j w0 h0 Hj Hnth [Htw Hth].
           destruct (Nat.eq_dec j i) as [-> | Hne].
           ++ rewrite Hi in Hnth. injection Hnth as <- <-.
              injection Hacc as -> -> _.
              destruct (Hints i w h Hi) as [Hmw Hmh].
              assert (Htrue : (w >=? twidth) && (w <=? MainSrc.G_MAXINT)
                              && (h >=? theight) && (h <=? MainSrc.G_MAXINT) = true).
              { rewrite !andb_true_iff, !Z.geb_le, !Z.leb_le. lia. }
              congruence.
           ++ apply (Hnone j w0 h0); [lia | exact Hnth | now split].
        -- right. repeat split; try lia; try exact Hnth.
      * intros j w0 h0 Hj Hnth Htw Hth Hle_w Hle_h.
        destruct (Nat.eq_dec j i) as [-> | Hne].
        -- rewrite Hi in Hnth. injection Hnth as <- <-.
           assert (Htrue : (w >=? twidth) && (w <=? width)
                           && (h >=? theight) && (h <=? height) = true).
           { rewrite !andb_true_iff, !Z.geb_le, !Z.leb_le. lia. }
           congruence.
        -- apply (Hmin j w0 h0); try assumption. lia.
  - split; [exact Hbest |]. split.
    + destruct Hfound as [[Hacc Hnone] | (Hk & Hnth & Hq)].
      * left. split; [exact Hacc |].
        intros j w0 h0 Hj Hnth.
        destruct (Nat.eq_dec j i) as [-> | Hne]; [congruence |].
        apply (Hnone j w0 h0); [lia | exact Hnth].
      * right. repeat split; try lia; try exact Hnth.
    + intros j w0 h0 Hj Hnth.
      destruct (Nat.eq_dec j i) as [-> | Hne]; [congruence |].
      apply (Hmin j w0 h0); [lia | exact Hnth].
Qed.

Lemma walked_end (n : nat) (acc : Z * Z * Z) :
  walked twidth theight icaps n acc ->
  walked twidth theight icaps 0 (MainSrc.walk_backwards twidth theight icaps n acc).
Proof.
  revert acc. induction n as [| i IH]; intros acc Hacc; simpl; [exact Hacc |].
  apply IH. now apply walked_step.
Qed.
End BestResolution.

(** X10.  Among several intersections the backward walk picks a structure
    that is at least as wide and as high as the peer asks, whenever there is
    one; no other such structure is smaller or equal in both width and height
    unless it has the very same size, and of the structures of that size the
    one with the lowest index is picked.  When no structure suffices the
    choice stays 0. *)
Theorem choose_best_picks_smallest_sufficient
    (twidth theight : Z) (icaps : list MainSrc.Dimensions)
    (Hints : forall (j : nat) (w h : Z),
        nth j icaps None = Some (w, h) ->
        w <= MainSrc.G_MAXINT /\ h <= MainSrc.G_MAXINT) :
  let '(width, height, best) := MainSrc.choose_best (Some (twidth, theight)) icaps in
  0 <= best /\
  ((exists (j : nat) (w h : Z),
       nth j icaps None = Some (w, h) /\ twidth <= w /\ theight <= h) ->
   nth (Z.to_nat best) icaps None = Some (width, height) /\
   twidth <= width /\ theight <= height) /\
  ((forall (j : nat) (w h : Z),
       nth j icaps None = Some (w, h) -> ~ (twidth <= w /\ theight <= h)) ->
   best = 0) /\
  (forall (j : nat) (w h : Z),
      nth j icaps None = Some (w, h) ->
      twidth <= w -> theight <= h -> w <= width -> h <= height ->
      w = width /\ h = height /\ best <= Z.of_nat j).
Proof.
  pose proof (walked_end twidth theight icaps Hints (List.length icaps) _
                (walked_start twidth theight icaps)) as Hend.
  unfold MainSrc.choose_best.
  destruct (MainSrc.walk_backwards twidth theight icaps (List.length icaps)
              (MainSrc.G_MAXINT, MainSrc.G_MAXINT, 0)) as [[width height] best].
  unfold walked in Hend. destruct Hend as (Hbest & Hfound & Hmin).
  split; [exact Hbest |]. split; [| split].
  - intros (j & w & h & Hnth & Htw & Hth).
    destruct Hfound as [[_ Hnone] | (_ & Hb & Hq)]; [| now split].
    exfalso. apply (Hnone j w h); [lia | exact Hnth | now split].
  - intros Hnone.
    destruct Hfound as [[Hacc _] | (_ & Hb & Hq)]; [now injection Hacc |].
    exfalso. now apply (Hnone _ _ _ Hb).
  - intros j w h Hnth. apply Hmin; [lia | exact Hnth].
Qed.

(** ** Streaming *)

Section Streaming.
Context {Buffer : Type}.

Lemma wait_again_cases (s : MainSrc.GstTcamMainSrc Buffer) :
  (MainSrc.is_running s = false /\ MainSrc.wait_again s = (MainSrc.EndOfStream, s)) \/
  (MainSrc.is_running s = true /\ MainSrc.queue s = [] /\
   MainSrc.wait_again s = (MainSrc.Waits, s)) \/
  (exists (ptr : Buffer) (rest : list Buffer),
      MainSrc.is_running s = true /\ MainSrc.queue s = ptr :: rest /\
      MainSrc.wait_again s = (MainSrc.Delivered ptr, MainSrc.set_queue rest s)).
Proof.
  unfold MainSrc.wait_again.
  destruct (MainSrc.is_running s); [| now left].
  destruct (MainSrc.queue s) as [| ptr rest]; right; [now left |].
  right. now exists ptr, rest.
Qed.

(** What [create] does, case by case; it touches nothing but the counter and
    the queue. *)
Lemma create_cases (s : MainSrc.GstTcamMainSrc Buffer) :
  exists c : Z,
    c = counted s /\
    (MainSrc.create s = (MainSrc.EndOfStream, MainSrc.set_frame_count c s) \/
     (MainSrc.is_running s = true /\ MainSrc.queue s = [] /\
      fst (MainSrc.create s) = MainSrc.Waits) \/
     (exists (ptr : Buffer) (rest : list Buffer),
         MainSrc.is_running s = true /\ MainSrc.queue s = ptr :: rest /\
         (MainSrc.n_buffers s = -1 \/
          MainSrc.frame_count s < MainSrc.to_guint (MainSrc.n_buffers s)) /\
         MainSrc.create s
           = (MainSrc.Delivered ptr,
              MainSrc.set_queue rest (MainSrc.set_frame_count c s)))).
Proof.
  assert (Hsame : MainSrc.set_frame_count (MainSrc.frame_count s) s = s)
    by now destruct s.
  exists (counted s). split; [reflexivity |].
  unfold MainSrc.create, counted.
  destruct (Z.eqb_spec (MainSrc.n_buffers s) (-1)) as [Hn | Hn]; cbn [negb andb].
  - rewrite Hsame.
    destruct (wait_again_cases s) as [[Hr ->] | [(Hr & Hq & ->) | (ptr & rest & Hr & Hq & ->)]].
    + now left.
    + right. left. now repeat split.
    + right. right. exists ptr, rest. repeat split; auto.
  - rewrite Z.geb_leb.
    destruct (Z.ltb_spec (MainSrc.frame_count s) (MainSrc.to_guint (MainSrc.n_buffers s)))
      as [Hroom | Hfull].
    + destruct (Z.leb_spec (MainSrc.to_guint (MainSrc.n_buffers s)) (MainSrc.frame_count s));
        [lia |].
      set (s1 := MainSrc.set_frame_count _ s).
      destruct (wait_again_cases s1)
        as [[Hr ->] | [(Hr & Hq & ->) | (ptr & rest & Hr & Hq & ->)]].
      * now left.
      * right. left. now repeat split.
      * right. right. exists ptr, rest. repeat split; auto.
    + destruct (Z.leb_spec (MainSrc.to_guint (MainSrc.n_buffers s)) (MainSrc.frame_count s));
        [| lia].
      rewrite Hsame. now left.
Qed.

(** The counter, for a limit in the declared range. *)
Lemma counted_cases (s : MainSrc.GstTcamMainSrc Buffer) :
  -1 <= MainSrc.n_buffers s <= MainSrc.G_MAXINT ->
  0 <= MainSrc.frame_count s ->
  (counted s = MainSrc.frame_count s /\
   (MainSrc.n_buffers s = -1 \/ MainSrc.n_buffers s <= MainSrc.frame_count s)) \/
  (0 <= MainSrc.n_buffers s /\
   MainSrc.frame_count s < MainSrc.n_buffers s /\
   counted s = MainSrc.frame_count s + 1).
Proof.
  intros Hrange Hcount. unfold counted.
  destruct (Z.eqb_spec (MainSrc.n_buffers s) (-1)) as [Hn | Hn]; cbn [negb andb].
  - left. split; [reflexivity | now left].
  - assert (Hguint : MainSrc.to_guint (MainSrc.n_buffers s) = MainSrc.n_buffers s).
    { unfold MainSrc.to_guint, MainSrc.G_MAXINT in *. apply Z.mod_small. lia. }
    rewrite Hguint.
    destruct (Z.ltb_spec (MainSrc.frame_count s) (MainSrc.n_buffers s)) as [Hlt | Hge].
    + right. repeat split; try lia.
      unfold MainSrc.to_ulong, MainSrc.G_MAXINT in *. apply Z.mod_small. lia.
    + left. split; [reflexivity | now right].
Qed.
End Streaming.

Section Schedules.
Context {Buffer : Type}.

(** Once [is_running] is false no call of the schedule delivers, waits or
    sends anything, and the queue stays as it is. *)
Lemma stopped_run (calls : list (MainSrc.Call (Buffer := Buffer)))
    (s : MainSrc.GstTcamMainSrc Buffer) :
  MainSrc.is_running s = false ->
  exists s' : MainSrc.GstTcamMainSrc Buffer,
    MainSrc.run calls s = Some ([], s') /\
    MainSrc.queue s' = MainSrc.queue s /\
    MainSrc.is_running s' = false /\
    MainSrc.sent s' = MainSrc.sent s.
Proof.
  revert s. induction calls as [| call rest IH]; intros s Hstopped.
  - exists s. now repeat split.
  - destruct call as [buffer | | | with_details]; cbn [MainSrc.run].
    + unfold MainSrc.sh_callback. rewrite Hstopped. cbn [negb]. now apply IH.
    + destruct (create_cases s) as (c & _ & [Heos | [(Hr & _) | (ptr & q & Hr & _)]]);
        try congruence.
      rewrite Heos.
      destruct (IH (MainSrc.set_frame_count c s) Hstopped) as (s' & Hrun & Hq & Hr & Hsent).
      exists s'. now repeat split.
    + destruct (IH (MainSrc.unlock s) eq_refl) as (s' & Hrun & Hq & Hr & Hsent).
      exists s'. now repeat split.
    + unfold MainSrc.device_lost_callback. rewrite Hstopped. cbn [negb]. now apply IH.
Qed.

(** X11.  After the device is lost on a running element, whatever calls
    follow deliver no buffer and never wait, buffers that arrive are dropped
    and the queue keeps what it held; the error is reported once and one
    end-of-stream event is sent, also when the callback fires again.  After
    [unlock] the same holds, with nothing sent. *)
Theorem nothing_is_delivered_after_device_loss
    (with_details : bool) (calls : list (MainSrc.Call (Buffer := Buffer)))
    (s : MainSrc.GstTcamMainSrc Buffer)
    (Hrunning : MainSrc.is_running s = true) :
  (exists s' : MainSrc.GstTcamMainSrc Buffer,
      MainSrc.run (MainSrc.call_device_lost with_details :: calls) s = Some ([], s') /\
      MainSrc.queue s' = MainSrc.queue s /\
      MainSrc.is_running s' = false /\
      MainSrc.sent s' =
        MainSrc.sent s ++
        MainSrc.ElementError ::
        (if with_details then [MainSrc.ElementErrorWithDetails] else []) ++
        [MainSrc.EosEvent]) /\
  (exists s' : MainSrc.GstTcamMainSrc Buffer,
      MainSrc.run (MainSrc.call_unlock :: calls) s = Some ([], s') /\
      MainSrc.queue s' = MainSrc.queue s /\
      MainSrc.is_running s' = false /\
      MainSrc.sent s' = MainSrc.sent s).
Proof.
  split.
  - cbn [MainSrc.run].
    destruct (stopped_run calls (MainSrc.device_lost_callback with_details s))
      as (s' & Hrun & Hq & Hr & Hsent).
    { unfold MainSrc.device_lost_callback. rewrite Hrunning. reflexivity. }
    exists s'. split; [exact Hrun |]. split; [| split; [exact Hr |]].
    + rewrite Hq. unfold MainSrc.device_lost_callback. rewrite Hrunning.
      now destruct with_details.
    + rewrite Hsent. unfold MainSrc.device_lost_callback. rewrite Hrunning.
      destruct with_details; simpl; rewrite <- ?app_assoc; reflexivity.
  - cbn [MainSrc.run].
    destruct (stopped_run calls (MainSrc.unlock s) eq_refl) as (s' & Hrun & Hq & Hr & Hsent).
    exists s'. now repeat split.
Qed.

(** X12.  Buffers leave the element in the order in which they arrived: in
    every schedule that returns, the buffers delivered followed by the ones
    still queued are the ones queued at the start followed by the buffers
    handed to [sh_callback] up to the moment the element stopped; none is
    lost, repeated or reordered.  While the element runs to the end, every
    buffer handed in is among them. *)
Theorem buffers_leave_in_arrival_order
    (calls : list (MainSrc.Call (Buffer := Buffer)))
    (s s' : MainSrc.GstTcamMainSrc Buffer) (out : list Buffer)
    (Hrun : MainSrc.run calls s = Some (out, s')) :
  exists taken dropped : list Buffer,
    MainSrc.pushed calls = taken ++ dropped /\
    out ++ MainSrc.queue s' = MainSrc.queue s ++ taken /\
    (MainSrc.is_running s' = true -> dropped = []).
Proof.
  revert s out Hrun. induction calls as [| call rest IH]; intros s out Hrun.
  - injection Hrun as <- <-. exists [], []. simpl. rewrite app_nil_r. auto.
  - destruct call as [buffer | | | with_details]; cbn [MainSrc.run MainSrc.pushed] in *.
    + destruct (MainSrc.is_running s) eqn:Hr.
      * unfold MainSrc.sh_callback in Hrun. rewrite Hr in Hrun. cbn [negb] in Hrun.
        destruct (IH _ _ Hrun) as (taken & dropped & Hp & Hq & Hd).
        exists (buffer :: taken), dropped. simpl in Hq.
        rewrite Hp, Hq, <- app_assoc. now repeat split.
      * destruct (stopped_run (MainSrc.call_sh_callback buffer :: rest) s Hr)
          as (s1 & Hrun1 & Hq & Hr1 & _).
        cbn [MainSrc.run] in Hrun1. rewrite Hrun in Hrun1. injection Hrun1 as -> ->.
        exists [], (buffer :: MainSrc.pushed rest).
        rewrite app_nil_r. simpl. repeat split; [now rewrite Hq | congruence].
    + destruct (create_cases s)
        as (c & _ & [Heos | [(_ & _ & Hw) | (ptr & q & _ & Hq & _ & Hdel)]]).
      * rewrite Heos in Hrun. destruct (IH _ _ Hrun) as (taken & dropped & Hp & Hq & Hd).
        exists taken, dropped. now repeat split.
      * destruct (MainSrc.create s) as [[] s1]; simpl in Hw; discriminate.
      * rewrite Hdel in Hrun.
        destruct (MainSrc.run rest _) as [[out1 s1] |] eqn:Hrest; [| discriminate].
        injection Hrun as <- <-.
        destruct (IH _ _ Hrest) as (taken & dropped & Hp & Hq1 & Hd).
        exists taken, dropped. simpl in Hq1. rewrite Hq. simpl. rewrite Hq1.
        now repeat split.
    + destruct (IH _ _ Hrun) as (taken & dropped & Hp & Hq & Hd).
      exists taken, dropped. now repeat split.
    + destruct (IH _ _ Hrun) as (taken & dropped & Hp & Hq & Hd).
      exists taken, dropped. split; [exact Hp |]. split; [| exact Hd].
      rewrite Hq. unfold MainSrc.device_lost_callback.
      destruct (MainSrc.is_running s); [| reflexivity].
      now destruct with_details.
Qed.
End Schedules.

Section Limits.
Context {Buffer : Type}.

Lemma run_keeps_n_buffers (calls : list (MainSrc.Call (Buffer := Buffer)))
    (s s' : MainSrc.GstTcamMainSrc Buffer) (out : list Buffer) :
  MainSrc.run calls s = Some (out, s') -> MainSrc.n_buffers s' = MainSrc.n_buffers s.
Proof.
  revert s out. induction calls as [| call rest IH]; intros s out Hrun.
  - now injection Hrun as _ <-.
  - destruct call as [buffer | | | with_details]; cbn [MainSrc.run] in Hrun.
    + rewrite (IH _ _ Hrun). unfold MainSrc.sh_callback.
      now destruct (negb (MainSrc.is_running s)).
    + destruct (create_cases s)
        as (c & _ & [Heos | [(_ & _ & Hw) | (ptr & q & _ & _ & _ & Hdel)]]).
      * rewrite Heos in Hrun. now rewrite (IH _ _ Hrun).
      * destruct (MainSrc.create s) as [[] s1]; simpl in Hw; discriminate.
      * rewrite Hdel in Hrun.
        destruct (MainSrc.run rest _) as [[out1 s1] |] eqn:Hrest; [| discriminate].
        injection Hrun as _ <-. now rewrite (IH _ _ Hrest).
    + now rewrite (IH _ _ Hrun).
    + rewrite (IH _ _ Hrun). unfold MainSrc.device_lost_callback.
      destruct (negb (MainSrc.is_running s)); [reflexivity |].
      now destruct with_details.
Qed.

(** X13.  [num-buffers] bounds what is delivered: with [n_buffers = n >= 0]
    and the counter at [c], a schedule delivers at most [n - c] buffers (none
    when [c >= n]), and the counter never passes [max c n]; the counter is the
    static one, so what earlier streams have counted is not available again.
    With [n_buffers = -1] the counter does not move. *)
Theorem num_buffers_limits_delivery
    (calls : list (MainSrc.Call (Buffer := Buffer)))
    (s s' : MainSrc.GstTcamMainSrc Buffer) (out : list Buffer)
    (Hrun : MainSrc.run calls s = Some (out, s'))
    (Hrange : -1 <= MainSrc.n_buffers s <= MainSrc.G_MAXINT)
    (Hcount : 0 <= MainSrc.frame_count s) :
  (MainSrc.n_buffers s = -1 -> MainSrc.frame_count s' = MainSrc.frame_count s) /\
  (0 <= MainSrc.n_buffers s ->
   Z.of_nat (List.length out) <= Z.max 0 (MainSrc.n_buffers s - MainSrc.frame_count s) /\
   MainSrc.frame_count s <= MainSrc.frame_count s'
     <= Z.max (MainSrc.frame_count s) (MainSrc.n_buffers s)).
Proof.
  revert s out Hrun Hrange Hcount.
  induction calls as [| call rest IH]; intros s out Hrun Hrange Hcount.
  - injection Hrun as <- <-. simpl. lia.
  - assert (Hguint : 0 <= MainSrc.n_buffers s ->
                     MainSrc.to_guint (MainSrc.n_buffers s) = MainSrc.n_buffers s).
    { intros Hn. unfold MainSrc.to_guint, MainSrc.G_MAXINT in *.
      apply Z.mod_small. lia. }
    destruct call as [buffer | | | with_details]; cbn [MainSrc.run] in Hrun.
    + apply IH in Hrun.
      * unfold MainSrc.sh_callback in Hrun.
        destruct (negb (MainSrc.is_running s)); exact Hrun.
      * unfold MainSrc.sh_callback. now destruct (negb (MainSrc.is_running s)).
      * unfold MainSrc.sh_callback. now destruct (negb (MainSrc.is_running s)).
    + destruct (create_cases s)
        as (c & Hc & [Heos | [(_ & _ & Hw) | (ptr & q & _ & _ & Hroom & Hdel)]]).
      * rewrite Heos in Hrun. subst c.
        apply IH in Hrun; simpl in *;
          [| lia | destruct (counted_cases s Hrange Hcount) as [[-> _] | (_ & _ & ->)]; lia].
        destruct (counted_cases s Hrange Hcount) as [[Hc _] | (Hn & Hlt & Hc)];
          rewrite Hc in Hrun; [exact Hrun |].
        split; [lia |]. intros _. destruct Hrun as [_ Hrun]. specialize (Hrun Hn). lia.
      * destruct (MainSrc.create s) as [[] s1]; simpl in Hw; discriminate.
      * rewrite Hdel in Hrun. subst c.
        destruct (MainSrc.run rest _) as [[out1 s1] |] eqn:Hrest; [| discriminate].
        injection Hrun as <- <-.
        apply IH in Hrest; simpl in *;
          [| lia | destruct (counted_cases s Hrange Hcount) as [[-> _] | (_ & _ & ->)]; lia].
        destruct (counted_cases s Hrange Hcount) as [[Hc Hfull] | (Hn & Hlt & Hc)];
          rewrite Hc in Hrest.
        -- assert (Hunl : MainSrc.n_buffers s = -1).
           { destruct Hfull as [Hn | Hfull]; [exact Hn |].
             destruct Hroom as [Hn | Hlt]; [exact Hn |].
             destruct (Z.eq_dec (MainSrc.n_buffers s) (-1)) as [Hn | Hn]; [exact Hn |].
             exfalso. rewrite Hguint in Hlt by lia. lia. }
           split; [exact (proj1 Hrest) | lia].
        -- split; [lia |]. intros _. destruct Hrest as [_ Hrest].
           specialize (Hrest Hn). lia.
    + apply IH in Hrun; simpl in *; assumption.
    + apply IH in Hrun.
      * unfold MainSrc.device_lost_callback in Hrun.
        destruct (negb (MainSrc.is_running s)); [exact Hrun |].
        now destruct with_details.
      * unfold MainSrc.device_lost_callback.
        destruct (negb (MainSrc.is_running s)); [exact Hrange |].
        now destruct with_details.
      * unfold MainSrc.device_lost_callback.
        destruct (negb (MainSrc.is_running s)); [exact Hcount |].
        now destruct with_details.
Qed.
End Limits.

(** ** Element properties *)

(** X14.  Reading a property back after [set_property] gives the value that
    was set, for [num-buffers] and [drop-incomplete-buffer] always and for
    [camera-buffers] unless [gst_element_get_state] did not succeed and
    reported a state other than NULL; so [camera-buffers] is also written in
    a state such as PLAYING when the state query succeeds.  The other
    two properties and the streaming fields keep their values. *)
Theorem set_property_then_get_property {Buffer : Type}
    (p : MainSrc.Setting) (ret : MainSrc.GstStateChangeReturn) (state : MainSrc.GstState)
    (s : MainSrc.GstTcamMainSrc Buffer) :
  MainSrc.get_property (MainSrc.name_of p) (MainSrc.set_property p ret state s) =
    (match p with
     | MainSrc.PROP_CAM_BUFFERS _ =>
         if negb (MainSrc.is_success ret) && negb (MainSrc.is_null state)
         then MainSrc.get_property (MainSrc.name_of p) s
         else MainSrc.value_of p
     | _ => MainSrc.value_of p
     end) /\
  (forall n : MainSrc.Name,
      n <> MainSrc.name_of p ->
      MainSrc.get_property n (MainSrc.set_property p ret state s)
        = MainSrc.get_property n s) /\
  MainSrc.is_running (MainSrc.set_property p ret state s) = MainSrc.is_running s /\
  MainSrc.queue (MainSrc.set_property p ret state s) = MainSrc.queue s /\
  MainSrc.frame_count (MainSrc.set_property p ret state s) = MainSrc.frame_count s /\
  MainSrc.sent (MainSrc.set_property p ret state s) = MainSrc.sent s.
Proof.
  destruct p as [v | v | v]; simpl.
  - destruct (negb (MainSrc.is_success ret) && negb (MainSrc.is_null state));
      (split; [reflexivity |]); (split; [| now repeat split]);
      intros n Hn; destruct n; simpl; congruence.
  - split; [reflexivity |]. split; [| now repeat split].
    intros n Hn; destruct n; simpl; congruence.
  - split; [reflexivity |]. split; [| now repeat split].
    intros n Hn; destruct n; simpl; congruence.
Qed.

(** ** Runs of the further properties *)

Lemma integer_set_then_get_run :
  fst (IntegerImpl.get_value (Cam := faithful_store) exposure
         (snd (IntegerImpl.set_value (Cam := faithful_store) exposure 53 live)))
    = success 53.
Proof.
  apply (integer_set_then_get (Cam := faithful_store) exposure 53 live).
  - intros v d _. reflexivity.
  - reflexivity.
Defined.

Lemma bool_set_then_get_run :
  fst (BoolImpl.get_value (Cam := faithful_store)
         (snd (fst (BoolImpl.set_value (Cam := faithful_store) strobe true live)))
         (snd (BoolImpl.set_value (Cam := faithful_store) strobe true live)))
    = success true /\
  BoolImpl.m_value
    (snd (fst (BoolImpl.set_value (Cam := faithful_store) strobe true live))) = true.
Proof.
  apply (bool_set_then_get (Cam := faithful_store) strobe true live).
  - intros v d _. destruct v; reflexivity.
  - reflexivity.
Defined.


Lemma enum_set_value_str_then_get_value_run :
  fst (EnumImpl.get_value (Cam := faithful_store) trigger_mode
         (snd (EnumImpl.set_value_str (Cam := faithful_store) trigger_mode "Manual" live)))
    = returns (success "Manual"%string).
Proof.
  apply (enum_set_value_str_then_get_value (Cam := faithful_store)
           trigger_mode "Manual" live eq_refl).
  - intros v d _. reflexivity.
  - reflexivity.
Defined.

Lemma enum_set_value_str_writes_lowest_code_run :
  exists code : Z,
    In (code, "Auto"%string) (EnumImpl.m_entries trigger_mode) /\
    (forall code' : Z,
        In (code', "Auto"%string) (EnumImpl.m_entries trigger_mode) -> code <= code') /\
    EnumImpl.set_value_str (Cam := faithful_store) trigger_mode "Auto" live
      = EnumImpl.set_value (Cam := faithful_store) trigger_mode code live.
Proof.
  apply (enum_set_value_str_writes_lowest_code (Cam := faithful_store)
           trigger_mode "Auto" live eq_refl).
  simpl. right. left. reflexivity.
Defined.

Lemma enum_get_value_label_is_an_entry_run :
  In "Auto"%string (EnumImpl.get_entries trigger_mode).
Proof.
  apply (enum_get_value_label_is_an_entry (Cam := faithful_store) trigger_mode
           (mkWorld true [(1%nat, wide_code)] []) "Auto").
  reflexivity.
Defined.

Lemma enum_set_value_refuses_unknown_int_run :
  EnumImpl.set_value (Cam := faithful_store) trigger_mode 7 live
    = (failure PropertyValueDoesNotExist, live).
Proof.
  apply (enum_set_value_refuses_unknown_int (Cam := faithful_store) trigger_mode 7 live);
    reflexivity.
Defined.

Lemma enum_set_value_str_refuses_unknown_label_run :
  EnumImpl.set_value_str (Cam := faithful_store) trigger_mode "Bogus" live
    = (failure PropertyValueDoesNotExist, live).
Proof.
  apply (enum_set_value_str_refuses_unknown_label (Cam := faithful_store)
           trigger_mode "Bogus" live).
  simpl. intros [H | [H | [H | H]]]; try discriminate H. exact H.
Defined.

Lemma backend_failure_passed_on_run :
  fst (IntegerImpl.get_value (Cam := failing (OtherStatus 5)) exposure live)
    = failure (OtherStatus 5) /\
  fst (EnumImpl.set_value (Cam := failing (OtherStatus 5)) trigger_mode 1 live)
    = failure (OtherStatus 5).
Proof.
  pose proof (backend_failure_passed_on (Cam := failing (OtherStatus 5)) live
                (OtherStatus 5) exposure 53 gain d250_7 250 strobe trigger_mode 1)
    as (Hget & _ & _ & _ & _ & _ & Hset).
  split.
  - apply Hget; reflexivity.
  - apply Hset; reflexivity.
Defined.

Lemma bool_set_value_failure_is_undefined_error_run :
  fst (BoolImpl.set_value (Cam := failing ResourceNotLockable) strobe true live)
    = (failure UndefinedError, strobe).
Proof.
  apply (bool_set_value_failure_is_undefined_error (Cam := failing ResourceNotLockable)
           strobe true live ResourceNotLockable); reflexivity.
Defined.

(** The peer proposes two structures and the source has the second one:
    the loop stops after the first and finds nothing. *)
Lemma peer_loop_examines_first_structure_only_run :
  MainSrc.peer_loop (Gst := MainSrcExamples.list_caps) 2 [1%nat; 2%nat; 3%nat]
    [5%nat; 2%nat] 0 = Some None.
Proof.
  apply (peer_loop_examines_first_structure_only (Gst := MainSrcExamples.list_caps)
           [1%nat; 2%nat; 3%nat] [5%nat; 2%nat] 0).
  simpl. lia.
Defined.

(** For a peer that asks for 800x600 the walk picks 1280x720, at index 3. *)
Lemma choose_best_picks_smallest_sufficient_run :
  let '(width, height, best) :=
    MainSrc.choose_best (Some (800, 600)) MainSrcExamples.sizes in
  0 <= best /\
  ((exists (j : nat) (w h : Z),
       nth j MainSrcExamples.sizes None = Some (w, h) /\ 800 <= w /\ 600 <= h) ->
   nth (Z.to_nat best) MainSrcExamples.sizes None = Some (width, height) /\
   800 <= width /\ 600 <= height) /\
  ((forall (j : nat) (w h : Z),
       nth j MainSrcExamples.sizes None = Some (w, h) -> ~ (800 <= w /\ 600 <= h)) ->
   best = 0) /\
  (forall (j : nat) (w h : Z),
      nth j MainSrcExamples.sizes None = Some (w, h) ->
      800 <= w -> 600 <= h -> w <= width -> h <= height ->
      w = width /\ h = height /\ best <= Z.of_nat j).
Proof.
  apply (choose_best_picks_smallest_sufficient 800 600 MainSrcExamples.sizes).
  intros j w h Hnth. unfold MainSrc.G_MAXINT.
  do 4 (destruct j as [| j]; simpl in Hnth;
        [try discriminate Hnth; injection Hnth as <- <-; lia |]).
  destruct j; discriminate Hnth.
Defined.

Lemma nothing_is_delivered_after_device_loss_run :
  exists s' : MainSrc.GstTcamMainSrc nat,
    MainSrc.run [MainSrc.call_device_lost true; MainSrc.call_sh_callback 9%nat;
                 MainSrc.call_create; MainSrc.call_device_lost true]
                MainSrcExamples.streaming = Some ([], s') /\
    MainSrc.queue s' = [7%nat; 8%nat] /\
    MainSrc.is_running s' = false /\
    MainSrc.sent s' =
      [MainSrc.ElementError; MainSrc.ElementErrorWithDetails; MainSrc.EosEvent].
Proof.
  apply (nothing_is_delivered_after_device_loss true
           [MainSrc.call_sh_callback 9%nat; MainSrc.call_create;
            MainSrc.call_device_lost true]
           MainSrcExamples.streaming eq_refl).
Defined.

Lemma buffers_leave_in_arrival_order_run :
  exists taken dropped : list nat,
    [9%nat] = taken ++ dropped /\
    [7%nat; 8%nat; 9%nat] ++ [] = [7%nat; 8%nat] ++ taken /\
    (true = true -> dropped = []).
Proof.
  apply (buffers_leave_in_arrival_order
           [MainSrc.call_create; MainSrc.call_sh_callback 9%nat;
            MainSrc.call_create; MainSrc.call_create]
           MainSrcExamples.streaming
           (MainSrc.mkSrc 3 10 true true [] true [] 3 [])
           [7%nat; 8%nat; 9%nat] eq_refl).
Defined.

Lemma num_buffers_limits_delivery_run :
  Z.of_nat (List.length [7%nat; 8%nat; 9%nat]) <= Z.max 0 (3 - 0) /\
  0 <= 3 <= Z.max 0 3.
Proof.
  apply (num_buffers_limits_delivery
           [MainSrc.call_create; MainSrc.call_sh_callback 9%nat;
            MainSrc.call_create; MainSrc.call_create; MainSrc.call_create]
           MainSrcExamples.streaming
           (MainSrc.mkSrc 3 10 true true [] true [] 3 [])
           [7%nat; 8%nat; 9%nat] eq_refl).
  - unfold MainSrc.G_MAXINT. simpl. lia.
  - simpl. lia.
  - simpl. lia.
Defined.
